(** * EloArg: the option registry and the argument parser

    A shallow embedding of [src/eloarg.c] and [src/eloarg.h]: the option
    records, the registry ([eloArgAdd]), the parser ([eloArgParse]) and the
    query accessors ([eloArgHas], [eloArgGet], [eloArgCount]).

    Conventions of the embedding.
    - A C string is a [string]; a [char *] that may be [NULL] is an
      [option string].  Elements of [argv] are NUL-terminated, so no
      character of a modelled string is the NUL character.
    - [error(...)] prints a message, releases the registry and calls
      [exit(EXIT_FAILURE)]: a function that can reach it returns a [result],
      and [Err e] carries the kind of the message and the name printed in it.
    - [malloc] and [strdup] are taken to succeed (the allocation failure
      exits are not modelled).
    - [EloArgOption *] pointers are indices into [heap], the list of the
      records allocated so far; two keys of the hash table that hold the same
      index alias one record. *)

From stdpp Require Import gmap strings list fin_maps.
From Stdlib Require Import Ascii ZArith.

Local Open Scope Z_scope.

(** ** Data model (eloarg.h) *)

Definition ELOARG_SHORT_OPTION_LENGTH : nat := 1.
Definition ELOARG_LONG_OPTION_LENGTH : nat := 32.
Definition ELOARG_DESCRIPTION_LENGTH : nat := 150.

Inductive ArgValueType : Type :=
  | ARG_NONE
  | ARG_INFO
  | ARG_OPTIONAL
  | ARG_REQUIRED.

#[global] Instance ArgValueType_eq_dec : EqDecision ArgValueType.
Proof. solve_decision. Defined.

(** Unsigned counters wrap around: [size_t] (64 bits on the LP64 targets the
    Makefile builds for), [uint32_t] and [uint8_t]. *)
Definition SIZE_MOD : Z := 2 ^ 64.
Definition size_t_incr (n : Z) : Z := (n + 1) mod SIZE_MOD.
Definition uint32_incr (n : Z) : Z := (n + 1) mod 2 ^ 32.
Definition uint8_incr (n : Z) : Z := (n + 1) mod 2 ^ 8.

(** [uniqueStrId] holds the decimal rendering ("%u") of the registration
    counter; the embedding keeps the number itself. *)
Record EloArgOption : Type := mkEloArgOption {
  shortOption : string;
  longOption : string;
  description : string;
  valueType : ArgValueType;
  uniqueStrId : Z;
  value : option string;
  provided : bool;
  count : Z;
  refCount : Z
}.

(** A pointer to a record. *)
Abbreviation loc := nat (only parsing).

(** Modelled from the spec: the key/value index ([hashtable.h] and
    [hashtable.c], which the Makefile compiles but which are not part of the
    sources at hand).  The spec gives its interface: insert, lookup,
    existence check and entry count over string keys, where two distinct keys
    may hold the same value reference.  It is a finite map from keys to
    record pointers; a [NULL] key is in no table. *)
Definition ht_has (h : gmap string loc) (key : option string) : bool :=
  match key with
  | None => false
  | Some k => match h !! k with Some _ => true | None => false end
  end.

(** Modelled from the spec: lookup of the index, [hashTable->get]. *)
Definition ht_get (h : gmap string loc) (key : string) : option loc := h !! key.

(** Modelled from the spec: insert of the index, [hashTable->set]. *)
Definition ht_set (h : gmap string loc) (key : string) (p : loc) : gmap string loc :=
  <[key := p]> h.

(** Modelled from the spec: entry count of the index, [hashTable->count]. *)
Definition ht_count (h : gmap string loc) : nat := size h.

(** The static [eloarg] instance together with the records it owns.
    [eloarg_count] is the C field [eloarg.count]. *)
Record EloArg : Type := mkEloArg {
  hashTable : gmap string loc;
  heap : list EloArgOption;
  eloarg_count : Z
}.

(** [eloArgInit]: an empty table, no record, counter at zero. *)
Definition eloArgInit : EloArg :=
  {| hashTable := ∅; heap := []; eloarg_count := 0 |}.

(** ** Errors *)

Inductive ConfigurationFault : Type :=
  | NoOptionName
  | NoDescription
  | ShortAlreadySet (s : string)
  | LongAlreadySet (l : string)
  | ShortTooLong
  | LongTooLong
  | DescriptionTooLong.

Inductive EloArgError : Type :=
  | ConfigurationError (why : ConfigurationFault)
  | UnknownOption (name : string)
  | MissingValue (name : string)
  | UnexpectedValue (name : string)
  | MissingRequired.

Inductive result (A : Type) : Type :=
  | Ok (a : A)
  | Err (e : EloArgError).
Arguments Ok {A} a.
Arguments Err {A} e.

(** ** Record updates through a pointer *)

Definition set_shortOption (s : string) (o : EloArgOption) : EloArgOption :=
  mkEloArgOption s (longOption o) (description o) (valueType o) (uniqueStrId o)
    (value o) (provided o) (count o) (uint8_incr (refCount o)).

Definition set_longOption (l : string) (o : EloArgOption) : EloArgOption :=
  mkEloArgOption (shortOption o) l (description o) (valueType o) (uniqueStrId o)
    (value o) (provided o) (count o) (uint8_incr (refCount o)).

(** [option->provided = true; option->count++;] *)
Definition mark (o : EloArgOption) : EloArgOption :=
  mkEloArgOption (shortOption o) (longOption o) (description o) (valueType o)
    (uniqueStrId o) (value o) true (size_t_incr (count o)) (refCount o).

(** [option->value = strdup(v);] *)
Definition set_value (v : string) (o : EloArgOption) : EloArgOption :=
  mkEloArgOption (shortOption o) (longOption o) (description o) (valueType o)
    (uniqueStrId o) (Some v) (provided o) (count o) (refCount o).

Definition store (st : EloArg) (p : loc) (o : EloArgOption) : EloArg :=
  {| hashTable := hashTable st; heap := <[p := o]> (heap st);
     eloarg_count := eloarg_count st |}.

(** [hashTable->get(hashTable, key)] followed by the dereference of the
    pointer it returns. *)
Definition lookup_option (st : EloArg) (key : string) : option (loc * EloArgOption) :=
  match ht_get (hashTable st) key with
  | None => None
  | Some p => match heap st !! p with
              | None => None
              | Some o => Some (p, o)
              end
  end.

(** ** Registration: [eloArgAdd] *)

Definition too_long (bound : nat) (s : option string) : bool :=
  match s with
  | None => false
  | Some s => bool_decide (bound < String.length s)%nat
  end.

Definition eloArgAdd (st : EloArg) (short long descr : option string)
    (vt : ArgValueType) : result EloArg :=
  match short, long with
  | None, None => Err (ConfigurationError NoOptionName)
  | _, _ =>
    match descr with
    | None => Err (ConfigurationError NoDescription)
    | Some d =>
      if ht_has (hashTable st) short
      then Err (ConfigurationError (ShortAlreadySet (default "" short)))
      else if ht_has (hashTable st) long
      then Err (ConfigurationError (LongAlreadySet (default "" long)))
      else if too_long ELOARG_SHORT_OPTION_LENGTH short
      then Err (ConfigurationError ShortTooLong)
      else if too_long ELOARG_LONG_OPTION_LENGTH long
      then Err (ConfigurationError LongTooLong)
      else if too_long ELOARG_DESCRIPTION_LENGTH (Some d)
      then Err (ConfigurationError DescriptionTooLong)
      else
        let p := length (heap st) in
        let o0 := mkEloArgOption "" "" d vt (eloarg_count st) None false 0 0 in
        let '(h1, o1) :=
          match short with
          | Some s => (ht_set (hashTable st) s p, set_shortOption s o0)
          | None => (hashTable st, o0)
          end in
        let '(h2, o2) :=
          match long with
          | Some l => (ht_set h1 l p, set_longOption l o1)
          | None => (h1, o1)
          end in
        Ok {| hashTable := h2; heap := heap st ++ [o2];
              eloarg_count := uint32_incr (eloarg_count st) |}
    end
  end.

(** ** Parsing: [eloArgParse] *)

(** What the body of the [for] loop does with one element of [argv]:
    [Exit] is a call of [error], [Return] a [return] out of [eloArgParse],
    [Next st skip] the end of the iteration, where [skip] tells whether the
    body has advanced [i] past the following element ([i++]). *)
Inductive step : Type :=
  | Exit (e : EloArgError)
  | Return (st : EloArg)
  | Next (st : EloArg) (skip : bool).

(** [s[0] == '-'] *)
Definition starts_with_dash (s : string) : bool :=
  match s with
  | String "-"%char _ => true
  | _ => false
  end.

(** [i + 1 < argc && argv[i + 1][0] != '-'], with [next] the element
    [argv[i + 1]] when there is one. *)
Definition detached_value (next : option string) : option string :=
  match next with
  | Some v => if starts_with_dash v then None else Some v
  | None => None
  end.

(** [strchr(s, c)] followed by [*pos = '\0']: the text before the first [c]
    and the text after it ([pos + 1]); [None] when [c] does not occur. *)
Fixpoint strchr_split (c : ascii) (s : string) : option (string * string) :=
  match s with
  | EmptyString => None
  | String x s' =>
    if Ascii.eqb x c then Some (EmptyString, s')
    else match strchr_split c s' with
         | Some (before, after) => Some (String x before, after)
         | None => None
         end
  end.

(** The [while] loop over the characters of a short element.
    [tmpOpt] is the key that is looked up: the source fills it once, before
    the loop, and does not change it afterwards.  In the detached branch the
    source does [i++] and then [opt++]; the branch is taken only when no
    character is left after [*opt], so the loop ends there. *)
Fixpoint short_loop (st : EloArg) (tmpOpt : string) (opt : string)
    (next : option string) : step :=
  match opt with
  | EmptyString => Next st false
  | String c rest =>
    match lookup_option st tmpOpt with
    | None => Exit (UnknownOption (String c EmptyString))
    | Some (p, o) =>
      let o1 := mark o in
      match valueType o with
      | ARG_INFO => Return (store st p o1)
      | ARG_OPTIONAL | ARG_REQUIRED =>
        match rest with
        | String _ _ => Next (store st p (set_value rest o1)) false
        | EmptyString =>
          match detached_value next with
          | Some v => Next (store st p (set_value v o1)) true
          | None => Exit (MissingValue (String c EmptyString))
          end
        end
      | ARG_NONE => short_loop (store st p o1) tmpOpt rest next
      end
    end
  end.

(** [char tmpOpt[2] = { *opt, '\0' };] *)
Definition first_char (opt : string) : string :=
  match opt with
  | EmptyString => EmptyString
  | String c _ => String c EmptyString
  end.

(** The long form with ['=']: [name] is [argv[i] + 2] once [argv[i]] has been
    cut at the ['='], and [inlineValue] is [eqPos + 1].  The unknown-option
    message prints [argv[i]], the two dashes and the name. *)
Definition long_inline (st : EloArg) (name inlineValue : string) : step :=
  match lookup_option st name with
  | None => Exit (UnknownOption ("--" +:+ name))
  | Some (p, o) =>
    match valueType o with
    | ARG_OPTIONAL | ARG_REQUIRED =>
      match inlineValue with
      | EmptyString => Exit (MissingValue (longOption o))
      | _ => Next (store st p (set_value inlineValue (mark o))) false
      end
    | _ => Exit (UnexpectedValue (longOption o))
    end
  end.

(** The long form without ['=']. *)
Definition long_spaced (st : EloArg) (name : string) (next : option string) : step :=
  match lookup_option st name with
  | None => Exit (UnknownOption ("--" +:+ name))
  | Some (p, o) =>
    let o1 := mark o in
    match valueType o with
    | ARG_INFO => Return (store st p o1)
    | ARG_OPTIONAL | ARG_REQUIRED =>
      match detached_value next with
      | Some v => Next (store st p (set_value v o1)) true
      | None => Exit (MissingValue (longOption o))
      end
    | ARG_NONE => Next (store st p o1) false
    end
  end.

(** The body of the [for] loop at [a = argv[i]].  The source searches the
    ['='] from the start of [argv[i]]; in the long form the first two
    characters are dashes, so the search is the one through the text after
    them.  The long branch sets [optionMatched] on every path that does not
    leave the function, so the short branch is run for the elements that
    start with a dash and are not of the long form. *)
Definition parse_arg (st : EloArg) (a : string) (next : option string) : step :=
  if String.eqb a "--" then Return st
  else
    match a with
    | String "-"%char (String "-"%char body) =>
      match strchr_split "="%char body with
      | Some (name, inlineValue) => long_inline st name inlineValue
      | None => long_spaced st body next
      end
    | String "-"%char opt => short_loop st (first_char opt) opt next
    | _ => Next st false
    end.

(** How the [for] loop ends. *)
Inductive outcome : Type :=
  | Failed (e : EloArgError)
  | Returned (st : EloArg)
  | Finished (st : EloArg).

(** The [for] loop, over the elements from [argv[i]] on. *)
Fixpoint parse_loop (st : EloArg) (args : list string) : outcome :=
  match args with
  | [] => Finished st
  | a :: rest =>
    match parse_arg st a (head rest) with
    | Exit e => Failed e
    | Return st' => Returned st'
    | Next st' false => parse_loop st' rest
    | Next st' true =>
      match rest with
      | [] => Finished st'
      | _ :: rest' => parse_loop st' rest'
      end
    end
  end.

(** The scan for a REQUIRED option without value.  Which of several such
    options the message names depends on the slot order of the table, so the
    error carries no name. *)
Definition unset_required (o : EloArgOption) : bool :=
  bool_decide (valueType o = ARG_REQUIRED) && bool_decide (value o = None).

Definition missing_required (st : EloArg) : bool :=
  existsb (fun kp => match heap st !! kp.2 with
                     | Some o => unset_required o
                     | None => false
                     end)
          (map_to_list (hashTable st)).

Definition eloArgParse (st : EloArg) (argv : list string) : result EloArg :=
  if bool_decide (length argv = 0%nat) || bool_decide (ht_count (hashTable st) = 0%nat)
  then Ok st
  else
    match parse_loop st (drop 1 argv) with
    | Failed e => Err e
    | Returned st' => Ok st'
    | Finished st' =>
      if missing_required st' then Err MissingRequired else Ok st'
    end.

(** ** Query accessors *)

Definition eloArgHas (st : EloArg) (key : string) : bool :=
  match lookup_option st key with
  | Some (_, o) => provided o
  | None => false
  end.

Definition eloArgGet (st : EloArg) (key : string) : option string :=
  match lookup_option st key with
  | Some (_, o) => if provided o then value o else None
  | None => None
  end.

Definition eloArgCount (st : EloArg) (key : string) : Z :=
  match lookup_option st key with
  | Some (_, o) => if provided o then count o else 0
  | None => 0
  end.

(** ** A sequence of API calls on one registry *)

Inductive call : Type :=
  | CallAdd (short long descr : option string) (vt : ArgValueType)
  | CallParse (argv : list string).

Definition do_call (st : EloArg) (c : call) : result EloArg :=
  match c with
  | CallAdd short long descr vt => eloArgAdd st short long descr vt
  | CallParse argv => eloArgParse st argv
  end.

(** The calls run in order; the first [error] ends the process. *)
Fixpoint run (st : EloArg) (cs : list call) : result EloArg :=
  match cs with
  | [] => Ok st
  | c :: cs' =>
    match do_call st c with
    | Ok st' => run st' cs'
    | Err e => Err e
    end
  end.

(** ** The ways of writing one option with its value on the command line *)

Inductive occurrence : Type :=
  | LongSpaced (name v : string)
  | LongInline (name v : string)
  | ShortAttached (c : ascii) (v : string)
  | ShortDetached (c : ascii) (v : string).

Definition occ_value (occ : occurrence) : string :=
  match occ with
  | LongSpaced _ v | LongInline _ v | ShortAttached _ v | ShortDetached _ v => v
  end.

(** The key the occurrence names. *)
Definition occ_key (occ : occurrence) : string :=
  match occ with
  | LongSpaced name _ | LongInline name _ => name
  | ShortAttached c _ | ShortDetached c _ => String c ""
  end.

(** The elements of [argv] the occurrence is written as:
    [--name v], [--name=v], [-cv] and [-c v]. *)
Definition occ_args (occ : occurrence) : list string :=
  match occ with
  | LongSpaced name v => ["--" +:+ name; v]
  | LongInline name v => ["--" +:+ name +:+ "=" +:+ v]
  | ShortAttached c v => [String "-" (String c v)]
  | ShortDetached c v => [String "-" (String c ""); v]
  end.

Definition has_char (c : ascii) (s : string) : bool :=
  match strchr_split c s with
  | Some _ => true
  | None => false
  end.

Definition is_empty (s : string) : bool :=
  match s with
  | EmptyString => true
  | String _ _ => false
  end.

(** The occurrence is well written: a long name is not empty (for the
    spaced form) and has no ['='], a short key is not the dash, a detached
    value does not start with a dash, an attached or inline value is not
    empty. *)
Definition occ_ok (occ : occurrence) : bool :=
  match occ with
  | LongSpaced name v =>
    negb (is_empty name) && negb (has_char "=" name) && negb (starts_with_dash v)
  | LongInline name v => negb (has_char "=" name) && negb (is_empty v)
  | ShortAttached c v => negb (Ascii.eqb c "-") && negb (is_empty v)
  | ShortDetached c v => negb (Ascii.eqb c "-") && negb (starts_with_dash v)
  end.

(** The occurrence is well written and its key is a key of the record at [p]. *)
Definition occ_for (h : gmap string loc) (p : loc) (occ : occurrence) : bool :=
  occ_ok occ && bool_decide (h !! occ_key occ = Some p).

Definition takes_value (o : EloArgOption) : bool :=
  match valueType o with
  | ARG_OPTIONAL | ARG_REQUIRED => true
  | ARG_NONE | ARG_INFO => false
  end.

(** What one occurrence does to the record. *)
Definition apply_occurrence (o : EloArgOption) (occ : occurrence) : EloArgOption :=
  set_value (occ_value occ) (mark o).

(** A command line made of occurrences of several options, each tagged with
    the pointer of the record it is meant for. *)
Definition tagged_args (ts : list (loc * occurrence)) : list string :=
  concat (map (fun t => occ_args t.2) ts).

(** The occurrence is well written, its key is a key of the record it is
    tagged with, and that record is an OPTIONAL or REQUIRED option. *)
Definition tagged_ok (st : EloArg) (t : loc * occurrence) : bool :=
  occ_for (hashTable st) t.1 t.2 &&
  match heap st !! t.1 with
  | Some o => takes_value o
  | None => false
  end.

(** The occurrences applied in order, each to the record it is tagged with. *)
Fixpoint apply_tagged (st : EloArg) (ts : list (loc * occurrence)) : EloArg :=
  match ts with
  | [] => st
  | (q, occ) :: ts' =>
    match heap st !! q with
    | Some o => apply_tagged (store st q (apply_occurrence o occ)) ts'
    | None => apply_tagged st ts'
    end
  end.

(** The occurrences tagged with [p], in order. *)
Fixpoint occurrences_of (p : loc) (ts : list (loc * occurrence)) : list occurrence :=
  match ts with
  | [] => []
  | (q, occ) :: ts' =>
    if decide (q = p) then occ :: occurrences_of p ts' else occurrences_of p ts'
  end.

(** ** Comparing registries *)

(** The table and the set of allocated records are the same in both. *)
Definition same_index (st st' : EloArg) : Prop :=
  hashTable st' = hashTable st /\ length (heap st') = length (heap st).

Definition step_state (s : step) : option EloArg :=
  match s with
  | Exit _ => None
  | Return st | Next st _ => Some st
  end.

Definition outcome_state (r : outcome) : option EloArg :=
  match r with
  | Failed _ => None
  | Returned st | Finished st => Some st
  end.

(** ** Example registries *)

Definition port_option : EloArgOption :=
  mkEloArgOption "p" "port" "Specifies the port number to listen on."
    ARG_REQUIRED 0 None false 0 2.

(** One REQUIRED option, [-p] and [--port]. *)
Definition port_registry : EloArg :=
  {| hashTable := <["port" := 0%nat]> (<["p" := 0%nat]> ∅);
     heap := [port_option];
     eloarg_count := 1 |}.

Definition help_option : EloArgOption :=
  mkEloArgOption "h" "help" "Displays help information." ARG_INFO 1 None false 0 2.

(** The REQUIRED option above and an INFO option, [-h] and [--help]. *)
Definition help_port_registry : EloArg :=
  {| hashTable := <["help" := 1%nat]> (<["h" := 1%nat]> (hashTable port_registry));
     heap := [port_option; help_option];
     eloarg_count := 2 |}.

(** A NONE option, [-v] and [--verbose]. *)
Definition verbose_option : EloArgOption :=
  mkEloArgOption "v" "verbose" "Increase verbosity level." ARG_NONE 2 None false 0 2.

(** The REQUIRED option [port], the INFO option [help] and the flag above. *)
Definition verbose_help_port_registry : EloArg :=
  {| hashTable := <["verbose" := 2%nat]> (<["v" := 2%nat]> (hashTable help_port_registry));
     heap := [port_option; help_option; verbose_option];
     eloarg_count := 3 |}.

Definition flag_option (c : string) (id : Z) : EloArgOption :=
  mkEloArgOption c "" "A flag." ARG_NONE id None false 0 1.

(** Three NONE-kind short options [-a], [-b] and [-c]. *)
Definition abc_registry : EloArg :=
  {| hashTable := <["c" := 2%nat]> (<["b" := 1%nat]> (<["a" := 0%nat]> ∅));
     heap := [flag_option "a" 0; flag_option "b" 1; flag_option "c" 2];
     eloarg_count := 3 |}.

Definition file_option : EloArgOption :=
  mkEloArgOption "f" "file" "Path to the input file." ARG_OPTIONAL 1 None false 0 2.

(** The REQUIRED option [-p], [--port] and an OPTIONAL one, [-f] and [--file]. *)
Definition port_file_registry : EloArg :=
  {| hashTable := <["file" := 1%nat]> (<["f" := 1%nat]> (hashTable port_registry));
     heap := [port_option; file_option];
     eloarg_count := 2 |}.

(** ** Help: [printDescription] and [printHelp] *)

Definition HELP_PADDING_RIGHT : Z := 38.
Definition HELP_OPTION_LINE_LENGTH : nat := 46.
Definition HELP_MAX_DESCRIPTION_SENTENCE_LENGTH : nat := 70.

(** What is written to the standard output is a string. *)
Definition newline : string := String "010" EmptyString.

(** [n] spaces: what ["%*s"] and ["%-*s"] print for the empty string at
    width [n]. *)
Fixpoint spaces (n : nat) : string :=
  match n with
  | O => EmptyString
  | S n' => String " " (spaces n')
  end.

(** [c == ' ' || c == '\t'] *)
Definition is_blank (c : ascii) : bool :=
  Ascii.eqb c " " || Ascii.eqb c "009".

(** The [while] loop of [printDescription].  [description] is the text
    from the current character on, [word] the text from [wordStart] up to
    the current character (its length is [wordLen]), [length] the number of
    characters on the current line and [out] what has been printed.  The
    counters stay below the length of the description, which is at most 150
    for a stored one, so that they do not wrap. *)
Fixpoint printDescription_loop (description word : string) (length : nat) (out : string)
    : string :=
  match description with
  | EmptyString => out
  | String c rest =>
    if is_blank c || is_empty rest then
      let wordLen := String.length word in
      let gap := if (0 <? length)%nat then 1%nat else 0%nat in
      if (length + wordLen + gap <=? HELP_MAX_DESCRIPTION_SENTENCE_LENGTH)%nat then
        printDescription_loop rest EmptyString (length + (wordLen + gap))
          (out +:+ (if (0 <? length)%nat then " " else "") +:+ word)
      else
        printDescription_loop rest EmptyString wordLen
          (out +:+ newline +:+ spaces HELP_OPTION_LINE_LENGTH +:+ word)
    else
      printDescription_loop rest (word +:+ String c EmptyString) length out
  end.

Definition printDescription (description : string) : string :=
  printDescription_loop description EmptyString 0 EmptyString +:+ newline.

(** What ["%-*s"] prints for the empty string at width [w]: a negative
    width is taken as its absolute value. *)
Definition pad (w : Z) : string := spaces (Z.abs_nat w).

(** The text [printHelp] prints for one option. *)
Definition help_entry (o : EloArgOption) : string :=
  if negb (is_empty (shortOption o)) && negb (is_empty (longOption o)) then
    "  -" +:+ shortOption o +:+ ", --" +:+ longOption o
    +:+ pad (HELP_PADDING_RIGHT - Z.of_nat (String.length (longOption o)))
    +:+ printDescription (description o)
  else if negb (is_empty (shortOption o)) then
    "  -" +:+ shortOption o +:+ pad HELP_PADDING_RIGHT
    +:+ printDescription (description o)
  else if negb (is_empty (longOption o)) then
    "      --" +:+ longOption o
    +:+ pad (HELP_PADDING_RIGHT - Z.of_nat (String.length (longOption o)))
    +:+ printDescription (description o)
  else EmptyString.

(** The loop of [printHelp] over the occupied slots of the table, [slots]
    being the pointers they hold in the order of the slots.  [exist] is the
    table of the identity tokens seen so far, kept as the set of the numbers
    the tokens render.  A slot of a table whose keys point to records always
    holds a record; the loop of the embedding passes over any other. *)
Fixpoint help_loop (records : list EloArgOption) (slots : list loc) (exist : gset Z)
    (out : string) : string :=
  match slots with
  | [] => out
  | p :: slots' =>
    match records !! p with
    | None => help_loop records slots' exist out
    | Some o =>
      if bool_decide (uniqueStrId o ∈ exist)
      then help_loop records slots' exist out
      else help_loop records slots' ({[uniqueStrId o]} ∪ exist) (out +:+ help_entry o)
    end
  end.

(** [printHelp]: [None] when it returns without printing, for a table
    without entry; otherwise the text printed before the registry is
    released and the process exits with success. *)
Definition printHelp (slots : list loc) (st : EloArg)
    (description footerDescription : option string) : option string :=
  if bool_decide (ht_count (hashTable st) = 0%nat) then None
  else
    Some ((match description with
           | Some d => d +:+ newline
           | None => EmptyString
           end)
          +:+ "Options:" +:+ newline
          +:+ help_loop (heap st) slots ∅ EmptyString
          +:+ (match footerDescription with
               | Some f => newline +:+ f +:+ newline
               | None => EmptyString
               end)).

(** The text without its spaces, tabs and line feeds. *)
Fixpoint solid (s : string) : string :=
  match s with
  | EmptyString => EmptyString
  | String c s' =>
    if is_blank c || Ascii.eqb c "010" then solid s' else String c (solid s')
  end.

(** The text without its last character. *)
Fixpoint drop_last (s : string) : string :=
  match s with
  | EmptyString => EmptyString
  | String c s' => if is_empty s' then EmptyString else String c (drop_last s')
  end.

(** The lengths of the lines of a text, the last of them being what
    follows the last line feed; [cur] is the length of the line so far. *)
Fixpoint line_lengths (s : string) (cur : nat) : list nat :=
  match s with
  | EmptyString => [cur]
  | String c s' =>
    if Ascii.eqb c "010" then cur :: line_lengths s' 0 else line_lengths s' (S cur)
  end.

(** The length of the longest run of characters other than space and tab,
    the first run being [cur] characters long already. *)
Fixpoint longest_word (s : string) (cur : nat) : nat :=
  match s with
  | EmptyString => cur
  | String c s' =>
    if is_blank c then Nat.max cur (longest_word s' 0) else longest_word s' (S cur)
  end.

(** The entries of the options at [ps], one after the other. *)
Fixpoint help_entries (records : list EloArgOption) (ps : list loc) : string :=
  match ps with
  | [] => EmptyString
  | p :: ps' =>
    match records !! p with
    | Some o => help_entry o +:+ help_entries records ps'
    | None => help_entries records ps'
    end
  end.

(** ** Release: [freeEloArgOption] and [eloArgFree] *)

Definition uint8_decr (n : Z) : Z := (n - 1) mod 2 ^ 8.

Definition set_refCount (r : Z) (o : EloArgOption) : EloArgOption :=
  mkEloArgOption (shortOption o) (longOption o) (description o) (valueType o)
    (uniqueStrId o) (value o) (provided o) (count o) r.

(** [freeEloArgOption] on the records in memory, where [None] stands for a
    record that has been freed.  The pointer may be [NULL]; a pointer to a
    record that is no longer there makes the decrement a use after free, for
    which the result is [None]. *)
Definition freeEloArgOption (opt : option loc) (m : list (option EloArgOption))
    : option (list (option EloArgOption)) :=
  match opt with
  | None => Some m
  | Some p =>
    match m !! p with
    | Some (Some o) =>
      let r := uint8_decr (refCount o) in
      if r =? 0 then Some (<[p := None]> m)
      else Some (<[p := Some (set_refCount r o)]> m)
    | _ => None
    end
  end.

(** The loop of [eloArgFree] over the occupied slots of the table; [slots]
    lists the pointers they hold in the order of the slots. *)
Fixpoint free_slots (slots : list loc) (m : list (option EloArgOption))
    : option (list (option EloArgOption)) :=
  match slots with
  | [] => Some m
  | p :: slots' =>
    match freeEloArgOption (Some p) m with
    | Some m' => free_slots slots' m'
    | None => None
    end
  end.

(** [eloArgFree] on a registry whose table exists: the records in memory
    when the table itself is destroyed.  The order of the slots is that of
    the hash table, so it is an argument. *)
Definition eloArgFree (slots : list loc) (st : EloArg) : option (list (option EloArgOption)) :=
  if bool_decide (ht_count (hashTable st) = 0%nat) then Some (Some <$> heap st)
  else free_slots slots (Some <$> heap st).

(** The pointers held by the table, one for each key. *)
Definition table_pointers (st : EloArg) : list loc :=
  (map_to_list (hashTable st)).*2.

(** The registration does not give one string as both names. *)
Definition distinct_names (c : call) : bool :=
  match c with
  | CallAdd (Some s) (Some l) _ _ => negb (String.eqb s l)
  | _ => true
  end.

(** The reference count of every record is the number of keys that point
    to it. *)
Definition keys_counted (st : EloArg) : Prop :=
  forall p o, heap st !! p = Some o ->
    refCount o = Z.of_nat (count_occ Nat.eq_dec (table_pointers st) p).

(** ** The example program: [main] of examples/test.c *)

(** How the process ends: with what it has written to the standard output
    and its exit status, in [error] (the message goes to the standard error
    and the status is [EXIT_FAILURE]), or in a call of [printf] that is given
    [NULL] for a ["%s"], which the language leaves undefined. *)
Inductive process : Type :=
  | Exited (out : string) (status : Z)
  | Aborted (e : EloArgError)
  | Undefined.

(** The six registrations of [main]. *)
Definition example_calls : list call :=
  [CallAdd (Some "h") (Some "help")
     (Some "Displays help information about the available options and usage.") ARG_INFO;
   CallAdd None (Some "version") (Some "Displays the version number of the program.")
     ARG_INFO;
   CallAdd None (Some "port") (Some "Specifies the port number to listen on.") ARG_REQUIRED;
   CallAdd (Some "f") (Some "file") (Some "Path to the input file.") ARG_OPTIONAL;
   CallAdd (Some "s") (Some "say-hello") (Some "Say hello.") ARG_NONE;
   CallAdd (Some "v") (Some "verbose") (Some "Increase verbosity level.") ARG_NONE].

Definition example_help_description : string :=
  "CustomTool 1.0, a powerful utility for advanced system operations." +:+ newline
  +:+ "Basic usages:" +:+ newline
  +:+ "connect to a server:  tool [options] hostname port [port] ..." +:+ newline
  +:+ "monitor incoming traffic:    tool -m -p port [options] [hostname] [port] ..."
  +:+ newline
  +:+ "send data to remote server:   tool -S hostname:port -p port [options]" +:+ newline
  +:+ newline
  +:+ "Arguments for long options apply equally to their short options." +:+ newline.

Definition example_help_footer : string :=
  "Specify custom timeouts using '-t' or '--timeout'. Example: '30' for 30 seconds.".

(** The registry of [main] before the parse. *)
Definition example_registry : EloArg :=
  match run eloArgInit example_calls with
  | Ok st => st
  | Err _ => eloArgInit
  end.

(** The message for the verbosity level. *)
Definition verbosity_line (verbosity : Z) : string :=
  (if verbosity =? 0 then "No verbosity: Minimal output"
   else if verbosity =? 1 then "Verbose level 1: Basic information"
   else if verbosity =? 2 then "Verbose level 2: Detailed information"
   else "Verbose level 3: Debugging information") +:+ newline.

(** [main] from the line that prints the port on. *)
Definition main_report (st : EloArg) : process :=
  match eloArgGet st "port" with
  | None => Undefined
  | Some port =>
    let out1 := "Port: " +:+ port +:+ newline in
    let file_line :=
      if eloArgHas st "file" then
        match eloArgGet st "file" with
        | Some file => Some ("File: " +:+ file +:+ newline)
        | None => None
        end
      else Some EmptyString in
    match file_line with
    | None => Undefined
    | Some out2 =>
      let out3 := if eloArgHas st "say-hello" then "Hello :)" +:+ newline else EmptyString in
      Exited (out1 +:+ out2 +:+ out3 +:+ verbosity_line (eloArgCount st "v")) 0
    end
  end.

(** [main]; [slots] is the order of the slots of the table, which the help
    text follows. *)
Definition main (slots : list loc) (argv : list string) : process :=
  match run eloArgInit example_calls with
  | Err e => Aborted e
  | Ok st0 =>
    match eloArgParse st0 argv with
    | Err e => Aborted e
    | Ok st =>
      if eloArgHas st "help" then
        match printHelp slots st (Some example_help_description) (Some example_help_footer) with
        | Some out => Exited out 0
        | None => main_report st
        end
      else if eloArgHas st "version" then Exited ("v1.0.0" +:+ newline) 0
      else main_report st
    end
  end.

(** ** Registries a program can reach, and what they keep *)

(** The registry after a sequence of calls on a fresh one, none of which
    has ended the process. *)
Definition reachable (st : EloArg) : Prop :=
  exists cs, run eloArgInit cs = Ok st.

(** The changes the parser makes to a registry: one after the other, a
    record that a key of the table leads to is marked, and given a value
    when its kind takes one. *)
Inductive updates (st : EloArg) : EloArg -> Prop :=
  | updates_refl : updates st st
  | updates_flag st' key p o :
      updates st st' ->
      lookup_option st' key = Some (p, o) ->
      takes_value o = false ->
      updates st (store st' p (mark o))
  | updates_value st' key p o v :
      updates st st' ->
      lookup_option st' key = Some (p, o) ->
      takes_value o = true ->
      updates st (store st' p (set_value v (mark o))).

(** The fields of a record that registration sets. *)
Definition same_static (o o' : EloArgOption) : Prop :=
  shortOption o' = shortOption o /\ longOption o' = longOption o /\
  description o' = description o /\ valueType o' = valueType o /\
  uniqueStrId o' = uniqueStrId o /\ refCount o' = refCount o.

(** The strings of the record fit the arrays of [EloArgOption]. *)
Definition fits_buffers (o : EloArgOption) : Prop :=
  (String.length (shortOption o) <= ELOARG_SHORT_OPTION_LENGTH)%nat /\
  (String.length (longOption o) <= ELOARG_LONG_OPTION_LENGTH)%nat /\
  (String.length (description o) <= ELOARG_DESCRIPTION_LENGTH)%nat.

(** How value, provided flag and count of a record go together. *)
Definition value_coherent (o : EloArgOption) : Prop :=
  (takes_value o = false -> value o = None) /\
  (provided o = false -> value o = None /\ count o = 0) /\
  (provided o = true -> takes_value o = true -> is_Some (value o)).

(** The table after [hashTable->set] under a key that may be [NULL]. *)
Definition set_key (key : option string) (p : loc) (h : gmap string loc) : gmap string loc :=
  match key with
  | Some k => ht_set h k p
  | None => h
  end.

(** The number of names given to a registration. *)
Definition names_given (short long : option string) : Z :=
  (if short is Some _ then 1 else 0) + (if long is Some _ then 1 else 0).

(** The record a registration allocates. *)
Definition new_record (short long : option string) (d : string) (vt : ArgValueType)
    (id : Z) : EloArgOption :=
  mkEloArgOption (default "" short) (default "" long) d vt id None false 0
    (names_given short long).

(** Every key of the table points to an allocated record. *)
Definition pointers_allocated (st : EloArg) : Prop :=
  forall k p, hashTable st !! k = Some p -> (p < length (heap st))%nat.

(** A key of the table is the short or the long name of its record. *)
Definition keys_name_records (st : EloArg) : Prop :=
  forall k p o, hashTable st !! k = Some p -> heap st !! p = Some o ->
                k = shortOption o \/ k = longOption o.

(** Every allocated record is under some key of the table. *)
Definition records_keyed (st : EloArg) : Prop :=
  forall p, (p < length (heap st))%nat -> exists k, hashTable st !! k = Some p.

(** The registration counter counts the records, and the record allocated
    by the [i]-th registration holds [i] as its identity token (both
    modulo the range of [uint32_t]). *)
Definition ids_in_order (st : EloArg) : Prop :=
  eloarg_count st = Z.of_nat (length (heap st)) mod 2 ^ 32 /\
  forall i o, heap st !! i = Some o -> uniqueStrId o = Z.of_nat i mod 2 ^ 32.

Definition ref_counted (o : EloArgOption) : Prop :=
  refCount o = 1 \/ refCount o = 2.

Record registry_inv (st : EloArg) : Prop := mkRegistryInv {
  inv_pointers : pointers_allocated st;
  inv_keys : keys_name_records st;
  inv_keyed : records_keyed st;
  inv_ids : ids_in_order st;
  inv_buffers : Forall fits_buffers (heap st);
  inv_values : Forall value_coherent (heap st);
  inv_refs : Forall ref_counted (heap st)
}.

(** ** Vocabulary for statements about command lines *)

(** The string of [n] characters [c]. *)
Fixpoint repeat_char (c : ascii) (n : nat) : string :=
  match n with
  | O => EmptyString
  | S n' => String c (repeat_char c n')
  end.

(** Some record of kind INFO is marked provided. *)
Definition info_provided (st : EloArg) : bool :=
  existsb (fun o => bool_decide (valueType o = ARG_INFO) && provided o) (heap st).

(** * Properties *)

(** ** Pointers, stores and lookups *)

Lemma lookup_option_Some st key p o :
  lookup_option st key = Some (p, o) <->
  hashTable st !! key = Some p /\ heap st !! p = Some o.
Proof.
  unfold lookup_option, ht_get.
  destruct (hashTable st !! key) as [q|]; [|split; [done | intros [? _]; done]].
  destruct (heap st !! q) as [o'|] eqn:Hq; split.
  - intros [= -> ->]. done.
  - intros [[= ->] Ho]. rewrite Hq in Ho. by injection Ho as ->.
  - done.
  - intros [[= ->] Ho]. congruence.
Qed.

Lemma hashTable_store st p o : hashTable (store st p o) = hashTable st.
Proof. done. Qed.

Lemma heap_store_length st p o : length (heap (store st p o)) = length (heap st).
Proof. simpl. apply length_insert. Qed.

Lemma heap_store_eq st p o o' :
  heap st !! p = Some o -> heap (store st p o') !! p = Some o'.
Proof.
  intros Hp. simpl. apply list_lookup_insert_eq. by eapply lookup_lt_Some.
Qed.

Lemma heap_store_ne st p q o : p <> q -> heap (store st p o) !! q = heap st !! q.
Proof. intros Hne. simpl. by apply list_lookup_insert_ne. Qed.

Lemma store_store st p o1 o2 : store (store st p o1) p o2 = store st p o2.
Proof. unfold store. simpl. by rewrite list_insert_insert_eq. Qed.

Lemma lookup_option_store_eq st key p o o' :
  lookup_option st key = Some (p, o) ->
  lookup_option (store st p o') key = Some (p, o').
Proof.
  rewrite !lookup_option_Some. intros [Hk Hp]. split; [done|].
  by eapply heap_store_eq.
Qed.

(** ** What one loop body can do *)

Lemma strchr_split_app (c : ascii) (name v : string) :
  strchr_split c name = None ->
  strchr_split c (name +:+ String c v) = Some (name, v).
Proof.
  induction name as [|x name IH]; simpl.
  - intros _. by rewrite Ascii.eqb_refl.
  - destruct (Ascii.eqb x c); [done|].
    destruct (strchr_split c name) as [[? ?]|]; [done|].
    intros _. by rewrite IH.
Qed.

(** The body advances the cursor past the following element only when
    that element exists and does not start with a dash. *)
Lemma short_loop_skip st tmpOpt opt next st' :
  short_loop st tmpOpt opt next = Next st' true ->
  exists v, next = Some v /\ starts_with_dash v = false.
Proof.
  revert st. induction opt as [|c rest IH]; intros st; simpl; [done|].
  destruct (lookup_option st tmpOpt) as [[p o]|]; [|done].
  destruct (valueType o); [by apply IH | done | |].
  all: destruct rest; [|done].
  all: unfold detached_value; destruct next as [v|]; [|done].
  all: destruct (starts_with_dash v) eqn:Hv; [done|]; eauto.
Qed.

Lemma parse_arg_skip st a next st' :
  parse_arg st a next = Next st' true ->
  exists v, next = Some v /\ starts_with_dash v = false.
Proof.
  unfold parse_arg. destruct (String.eqb a "--"); [done|].
  destruct a as [|x a]; [done|].
  destruct (Ascii.eqb_spec x "-"%char) as [->|Hx]; cycle 1.
  { destruct x as [[] [] [] [] [] [] [] []]; try done.
    all: destruct a as [|y a]; try done. }
  destruct a as [|y a]; [done|].
  destruct (Ascii.eqb_spec y "-"%char) as [->|Hy].
  - destruct (strchr_split "=" a) as [[name v]|].
    + unfold long_inline. destruct (lookup_option st name) as [[p o]|]; [|done].
      destruct (valueType o); try done; by destruct v.
    + unfold long_spaced. destruct (lookup_option st a) as [[p o]|]; [|done].
      destruct (valueType o); try done.
      all: unfold detached_value; destruct next as [v|]; [|done].
      all: destruct (starts_with_dash v) eqn:Hv; [done|]; eauto.
  - intros H.
    assert (short_loop st (first_char (String y a)) (String y a) next = Next st' true)
      as H'; [|by eapply short_loop_skip].
    rewrite <- H. destruct y as [[] [] [] [] [] [] [] []]; try done.
Qed.

(** The loop body never reports a missing REQUIRED option: that message
    belongs to the scan after the loop. *)
Lemma short_loop_not_missing_required st tmpOpt opt next :
  short_loop st tmpOpt opt next <> Exit MissingRequired.
Proof.
  revert st. induction opt as [|c rest IH]; intros st; simpl; [done|].
  destruct (lookup_option st tmpOpt) as [[p o]|]; [|done].
  destruct (valueType o); [by apply IH | done | |].
  all: destruct rest; [|done].
  all: by destruct (detached_value next).
Qed.

Lemma parse_arg_not_missing_required st a next :
  parse_arg st a next <> Exit MissingRequired.
Proof.
  unfold parse_arg. destruct (String.eqb a "--"); [done|].
  assert (forall name v, long_inline st name v <> Exit MissingRequired) as Hin.
  { intros name v. unfold long_inline.
    destruct (lookup_option st name) as [[p o]|]; [|done].
    destruct (valueType o); try done; by destruct v. }
  assert (forall name, long_spaced st name next <> Exit MissingRequired) as Hsp.
  { intros name. unfold long_spaced.
    destruct (lookup_option st name) as [[p o]|]; [|done].
    destruct (valueType o); try done; by destruct (detached_value next). }
  destruct a as [|x a]; [done|].
  destruct x as [[] [] [] [] [] [] [] []]; try done.
  destruct a as [|y a]; [done|].
  destruct y as [[] [] [] [] [] [] [] []];
    try apply short_loop_not_missing_required.
  destruct (strchr_split "=" a) as [[name v]|]; [apply Hin | apply Hsp].
Qed.

Lemma parse_loop_not_missing_required st args :
  parse_loop st args <> Failed MissingRequired.
Proof.
  remember (length args) as n eqn:Hn.
  revert st args Hn. induction (lt_wf n) as [n _ IH]; intros st args ->.
  destruct args as [|a rest]; simpl; [done|].
  destruct (parse_arg st a (head rest)) as [e|st'|st' [|]] eqn:Ha.
  - intros [= ->]. by eapply parse_arg_not_missing_required.
  - done.
  - destruct rest as [|b rest']; [done|].
    eapply IH; [|done]. simpl. lia.
  - eapply IH; [|done]. simpl. lia.
Qed.

(** Whatever follows a double dash has no part in the outcome of the loop,
    and the loop does not run to its end. *)
Lemma parse_loop_until_double_dash pre :
  forall st rest,
    (forall rest', parse_loop st (pre ++ "--" :: rest') = parse_loop st (pre ++ "--" :: rest)) /\
    (forall st', parse_loop st (pre ++ "--" :: rest) <> Finished st').
Proof.
  remember (length pre) as n eqn:Hn.
  revert pre Hn. induction (lt_wf n) as [n _ IH]; intros pre -> st rest.
  destruct pre as [|a pre']; [done|].
  change ((a :: pre') ++ ?l) with (a :: (pre' ++ l)).
  assert (forall l, head (pre' ++ "--" :: l) = head (pre' ++ ["--"])) as Hhd
    by (intros l; by destruct pre').
  split.
  - intros rest'. simpl. rewrite (Hhd rest'), (Hhd rest).
    destruct (parse_arg st a (head (pre' ++ ["--"]))) as [e|st'|st' [|]] eqn:Ha;
      [done | done | |].
    + apply parse_arg_skip in Ha as (v & Hv & Hdash).
      destruct pre' as [|b pre'']; simpl in *.
      { injection Hv as <-. done. }
      by apply (IH (length pre'')); [simpl; lia|].
    + by apply (IH (length pre')); [simpl; lia|].
  - intros st'. simpl. rewrite (Hhd rest).
    destruct (parse_arg st a (head (pre' ++ ["--"]))) as [e|st1|st1 [|]] eqn:Ha;
      [done | done | |].
    + apply parse_arg_skip in Ha as (v & Hv & Hdash).
      destruct pre' as [|b pre'']; simpl in *.
      { injection Hv as <-. done. }
      by apply (IH (length pre'')); [simpl; lia|].
    + by apply (IH (length pre')); [simpl; lia|].
Qed.

(** ** The scan for missing REQUIRED options *)

Lemma missing_required_spec st :
  missing_required st = true <->
  exists key p o,
    hashTable st !! key = Some p /\ heap st !! p = Some o /\
    valueType o = ARG_REQUIRED /\ value o = None.
Proof.
  unfold missing_required. rewrite existsb_exists. split.
  - intros ([key p] & Hin & Ho). simpl in Ho.
    apply list_elem_of_In, elem_of_map_to_list in Hin.
    destruct (heap st !! p) as [o|] eqn:Hp; [|done].
    unfold unset_required in Ho. apply andb_true_iff in Ho as [H1 H2].
    apply bool_decide_eq_true in H1, H2. by exists key, p, o.
  - intros (key & p & o & Hk & Hp & Hvt & Hval).
    exists (key, p). split.
    + by apply list_elem_of_In, elem_of_map_to_list.
    + simpl. rewrite Hp. unfold unset_required.
      by rewrite !bool_decide_eq_true_2.
Qed.

Lemma missing_required_nonempty st :
  missing_required st = true -> ht_count (hashTable st) <> 0%nat.
Proof.
  rewrite missing_required_spec. intros (key & p & _ & Hk & _) Hsize.
  apply map_size_empty_iff in Hsize. rewrite Hsize in Hk. by rewrite lookup_empty in Hk.
Qed.

Lemma ht_count_nonempty (h : gmap string loc) key p :
  h !! key = Some p -> ht_count h <> 0%nat.
Proof.
  intros Hk Hsize. apply map_size_empty_iff in Hsize. by rewrite Hsize, lookup_empty in Hk.
Qed.

(** No REQUIRED option is left without value once the record at [p] has one
    and every other record already had. *)
Lemma missing_required_after_value st p o' :
  value o' <> None ->
  (forall key q o, hashTable st !! key = Some q -> q <> p ->
                   heap st !! q = Some o -> unset_required o = false) ->
  missing_required (store st p o') = false.
Proof.
  intros Hval Hothers. apply not_true_is_false. rewrite missing_required_spec.
  intros (key & q & o & Hk & Hq & Hvt & Hnone).
  destruct (decide (p = q)) as [<-|Hne].
  - simpl in Hq. pose proof (lookup_lt_Some _ _ _ Hq) as Hlt.
    rewrite length_insert in Hlt. rewrite list_lookup_insert_eq in Hq by done.
    congruence.
  - rewrite heap_store_ne in Hq by done.
    specialize (Hothers key q o Hk (not_eq_sym Hne) Hq).
    unfold unset_required in Hothers.
    by rewrite !bool_decide_eq_true_2 in Hothers.
Qed.

(** ** Classification of one element *)

Lemma parse_arg_long st body next :
  body <> "" ->
  parse_arg st ("--" +:+ body) next =
    match strchr_split "=" body with
    | Some (name, inlineValue) => long_inline st name inlineValue
    | None => long_spaced st body next
    end.
Proof. intros Hbody. unfold parse_arg. by destruct body. Qed.

Lemma parse_arg_short st c rest next :
  c <> "-"%char ->
  parse_arg st (String "-" (String c rest)) next =
    short_loop st (String c "") (String c rest) next.
Proof.
  intros Hc. unfold parse_arg.
  destruct c as [[] [] [] [] [] [] [] []]; done.
Qed.

Lemma append_not_empty (s : string) (c : ascii) (t : string) : s +:+ String c t <> "".
Proof. by destruct s. Qed.

(** How the loop and the parser go on after the body of one iteration. *)
Lemma parse_loop_exit st a rest e :
  parse_arg st a (head rest) = Exit e -> parse_loop st (a :: rest) = Failed e.
Proof. simpl. by intros ->. Qed.

Lemma parse_loop_return st a rest st' :
  parse_arg st a (head rest) = Return st' -> parse_loop st (a :: rest) = Returned st'.
Proof. simpl. by intros ->. Qed.

Lemma parse_loop_next st a rest st' :
  parse_arg st a (head rest) = Next st' false ->
  parse_loop st (a :: rest) = parse_loop st' rest.
Proof. simpl. by intros ->. Qed.

Lemma parse_loop_next_skip st a v rest st' :
  parse_arg st a (Some v) = Next st' true ->
  parse_loop st (a :: v :: rest) = parse_loop st' rest.
Proof. simpl. by intros ->. Qed.

(** The parser on a vector that holds at least the program name. *)
Lemma eloArgParse_cons st prog args :
  eloArgParse st (prog :: args) =
    if bool_decide (ht_count (hashTable st) = 0%nat) then Ok st
    else match parse_loop st args with
         | Failed e => Err e
         | Returned st' => Ok st'
         | Finished st' =>
           if missing_required st' then Err MissingRequired else Ok st'
         end.
Proof.
  unfold eloArgParse. rewrite (bool_decide_eq_false_2 (length (prog :: args) = 0%nat)) by done.
  reflexivity.
Qed.

(** ** The example registries are built by registration *)

Lemma port_registry_built :
  eloArgAdd eloArgInit (Some "p") (Some "port")
    (Some "Specifies the port number to listen on.") ARG_REQUIRED
  = Ok port_registry.
Proof. reflexivity. Qed.

Lemma help_port_registry_built :
  eloArgAdd port_registry (Some "h") (Some "help")
    (Some "Displays help information.") ARG_INFO
  = Ok help_port_registry.
Proof. reflexivity. Qed.

Lemma verbose_help_port_registry_built :
  eloArgAdd help_port_registry (Some "v") (Some "verbose")
    (Some "Increase verbosity level.") ARG_NONE
  = Ok verbose_help_port_registry.
Proof. reflexivity. Qed.

Lemma port_file_registry_built :
  eloArgAdd port_registry (Some "f") (Some "file")
    (Some "Path to the input file.") ARG_OPTIONAL
  = Ok port_file_registry.
Proof. reflexivity. Qed.

Lemma abc_registry_built :
  run eloArgInit
    [CallAdd (Some "a") None (Some "A flag.") ARG_NONE;
     CallAdd (Some "b") None (Some "A flag.") ARG_NONE;
     CallAdd (Some "c") None (Some "A flag.") ARG_NONE]
  = Ok abc_registry.
Proof. reflexivity. Qed.

(** ** One occurrence of an option that takes a value *)

Lemma has_char_false c s : has_char c s = false -> strchr_split c s = None.
Proof. unfold has_char. by destruct (strchr_split c s). Qed.

Lemma is_empty_false s : is_empty s = false -> s <> "".
Proof. by destruct s. Qed.

Lemma parse_loop_occurrence st p o occ rest :
  occ_for (hashTable st) p occ = true ->
  heap st !! p = Some o ->
  takes_value o = true ->
  parse_loop st (occ_args occ ++ rest)
  = parse_loop (store st p (set_value (occ_value occ) (mark o))) rest.
Proof.
  unfold occ_for, takes_value. intros [Hok Hkey%bool_decide_eq_true]%andb_true_iff Hp Hvt.
  assert (lookup_option st (occ_key occ) = Some (p, o)) as Hlook
    by by apply lookup_option_Some.
  destruct occ as [name v | name v | c v | c v]; simpl in Hok, Hlook |- *;
    repeat (apply andb_true_iff in Hok as [Hok ?]);
    repeat match goal with H : negb _ = true |- _ => apply negb_true_iff in H end.
  - apply parse_loop_next_skip.
    rewrite parse_arg_long by by apply is_empty_false.
    rewrite has_char_false by done. unfold long_spaced, detached_value.
    rewrite Hlook. destruct (valueType o); try done.
    all: by match goal with H : starts_with_dash _ = false |- _ => rewrite H end.
  - apply parse_loop_next.
    change ("--" +:+ name +:+ "=" +:+ v) with ("--" +:+ (name +:+ String "="%char v)).
    rewrite parse_arg_long by apply append_not_empty.
    rewrite strchr_split_app by by apply has_char_false.
    unfold long_inline. rewrite Hlook.
    destruct v; [done|]. by destruct (valueType o).
  - apply parse_loop_next.
    rewrite parse_arg_short by by apply Ascii.eqb_neq.
    simpl. rewrite Hlook. destruct v; [done|]. by destruct (valueType o).
  - apply parse_loop_next_skip.
    rewrite parse_arg_short by by apply Ascii.eqb_neq.
    simpl. rewrite Hlook. unfold detached_value.
    destruct (valueType o); try done.
    all: by match goal with H : starts_with_dash _ = false |- _ => rewrite H end.
Qed.

(** Writing an occurrence to a record leaves every occurrence as well
    tagged as it was. *)
Lemma tagged_ok_store st q o occ t :
  heap st !! q = Some o ->
  tagged_ok (store st q (apply_occurrence o occ)) t = tagged_ok st t.
Proof.
  intros Hq. unfold tagged_ok. rewrite hashTable_store. f_equal.
  destruct (decide (q = t.1)) as [<-|Hne].
  - by rewrite (heap_store_eq st q o), Hq.
  - by rewrite heap_store_ne.
Qed.

Lemma forallb_pointwise {A : Type} (f g : A -> bool) (l : list A) :
  (forall x, f x = g x) -> forallb f l = forallb g l.
Proof. intros Hfg. induction l as [|x l IH]; simpl; [done|]. by rewrite Hfg, IH. Qed.

Lemma parse_loop_tagged ts :
  forall st rest,
    forallb (tagged_ok st) ts = true ->
    parse_loop st (tagged_args ts ++ rest) = parse_loop (apply_tagged st ts) rest.
Proof.
  induction ts as [|[q occ] ts IH]; intros st rest Hall; [done|].
  simpl in Hall. apply andb_true_iff in Hall as [Hocc Hall].
  unfold tagged_ok in Hocc. simpl in Hocc.
  apply andb_true_iff in Hocc as [Hfor Hq].
  destruct (heap st !! q) as [o|] eqn:Ho; [|done].
  unfold tagged_args. simpl. rewrite Ho, <- app_assoc.
  rewrite (parse_loop_occurrence st q o) by done.
  apply IH. rewrite <- Hall. apply forallb_pointwise.
  intros t. by apply tagged_ok_store.
Qed.

Lemma hashTable_apply_tagged ts :
  forall st, hashTable (apply_tagged st ts) = hashTable st.
Proof.
  induction ts as [|[q occ] ts IH]; intros st; simpl; [done|].
  destruct (heap st !! q); by rewrite IH.
Qed.

(** The record at [p] has received the occurrences tagged with [p], and
    only those. *)
Lemma heap_apply_tagged p ts :
  forall st o,
    heap st !! p = Some o ->
    heap (apply_tagged st ts) !! p
    = Some (fold_left apply_occurrence (occurrences_of p ts) o).
Proof.
  induction ts as [|[q occ] ts IH]; intros st o Hp; simpl; [done|].
  destruct (decide (q = p)) as [->|Hne].
  - rewrite Hp. simpl. apply IH. by eapply heap_store_eq.
  - destruct (heap st !! q) as [oq|]; apply IH; [|done].
    by rewrite heap_store_ne.
Qed.

(** The count after a run of occurrences, up to the wrap-around of
    [size_t]; the fields set at registration do not change. *)
Lemma fold_occurrences_fields occs :
  forall o,
    let r := fold_left apply_occurrence occs o in
    shortOption r = shortOption o /\ longOption r = longOption o /\
    description r = description o /\ valueType r = valueType o /\
    uniqueStrId r = uniqueStrId o /\ refCount r = refCount o /\
    count r mod SIZE_MOD = (count o + Z.of_nat (length occs)) mod SIZE_MOD.
Proof.
  induction occs as [|occ occs IH]; intros o; simpl.
  - repeat split. f_equal. lia.
  - destruct (IH (apply_occurrence o occ)) as (H1 & H2 & H3 & H4 & H5 & H6 & H7).
    repeat split; try done.
    rewrite H7. simpl. unfold size_t_incr.
    rewrite Zplus_mod_idemp_l. f_equal. lia.
Qed.

Lemma fold_occurrences_last occs last o :
  fold_left apply_occurrence (occs ++ [last]) o =
    mkEloArgOption (shortOption o) (longOption o) (description o) (valueType o)
      (uniqueStrId o) (Some (occ_value last)) true
      ((count o + Z.of_nat (length occs + 1)) mod SIZE_MOD) (refCount o).
Proof.
  rewrite fold_left_app. simpl.
  destruct (fold_occurrences_fields occs o) as (H1 & H2 & H3 & H4 & H5 & H6 & H7).
  unfold apply_occurrence at 1, set_value, mark. simpl.
  rewrite H1, H2, H3, H4, H5, H6. f_equal.
  unfold size_t_incr. rewrite <- Zplus_mod_idemp_l, H7, Zplus_mod_idemp_l.
  f_equal. lia.
Qed.

(** ** What parsing and registration leave in place *)

Lemma same_index_refl st : same_index st st.
Proof. done. Qed.

Lemma same_index_store st st' p o : same_index st st' -> same_index st (store st' p o).
Proof. intros [Hh Hl]. split; [done|]. by rewrite heap_store_length. Qed.

Lemma same_index_trans st1 st2 st3 :
  same_index st1 st2 -> same_index st2 st3 -> same_index st1 st3.
Proof. intros [H1 H2] [H3 H4]. split; congruence. Qed.

Create HintDb index.
#[local] Hint Resolve same_index_refl same_index_store : index.

Lemma short_loop_same_index opt :
  forall st0 st tmpOpt next st',
    same_index st0 st ->
    step_state (short_loop st tmpOpt opt next) = Some st' -> same_index st0 st'.
Proof.
  induction opt as [|c rest IH]; intros st0 st tmpOpt next st' Hst; simpl.
  - by intros [= <-].
  - destruct (lookup_option st tmpOpt) as [[p o]|]; [|done].
    destruct (valueType o).
    + apply IH. auto with index.
    + intros [= <-]. auto with index.
    + destruct rest; [destruct (detached_value next)|]; simpl; try done.
      all: intros [= <-]; auto with index.
    + destruct rest; [destruct (detached_value next)|]; simpl; try done.
      all: intros [= <-]; auto with index.
Qed.

Lemma parse_arg_same_index st a next st' :
  step_state (parse_arg st a next) = Some st' -> same_index st st'.
Proof.
  unfold parse_arg. destruct (String.eqb a "--"); [by intros [= <-]|].
  assert (forall name v, step_state (long_inline st name v) = Some st' -> same_index st st')
    as Hin.
  { intros name v. unfold long_inline.
    destruct (lookup_option st name) as [[p o]|]; [|done].
    destruct (valueType o); try done.
    all: destruct v; [done|]; intros [= <-]; auto with index. }
  assert (forall name, step_state (long_spaced st name next) = Some st' -> same_index st st')
    as Hsp.
  { intros name. unfold long_spaced.
    destruct (lookup_option st name) as [[p o]|]; [|done].
    destruct (valueType o); try destruct (detached_value next); simpl; try done.
    all: intros [= <-]; auto with index. }
  assert (forall k opt, step_state (short_loop st k opt next) = Some st' -> same_index st st')
    as Hsh by (intros k opt; by apply short_loop_same_index).
  destruct a as [|x a]; [by intros [= <-]|].
  destruct x as [[] [] [] [] [] [] [] []]; try by intros [= <-].
  destruct a as [|y a]; [by intros [= <-]|].
  destruct y as [[] [] [] [] [] [] [] []]; try apply Hsh.
  destruct (strchr_split "=" a) as [[name v]|]; [apply Hin | apply Hsp].
Qed.

Lemma parse_loop_same_index args :
  forall st st', outcome_state (parse_loop st args) = Some st' -> same_index st st'.
Proof.
  remember (length args) as n eqn:Hn.
  revert args Hn. induction (lt_wf n) as [n _ IH]; intros args -> st st'.
  destruct args as [|a rest]; simpl; [by intros [= <-]|].
  destruct (parse_arg st a (head rest)) as [e|st1|st1 [|]] eqn:Ha; simpl.
  - done.
  - intros [= <-]. apply (parse_arg_same_index st a (head rest)). by rewrite Ha.
  - assert (same_index st st1) as H1
      by (apply (parse_arg_same_index st a (head rest)); by rewrite Ha).
    destruct rest as [|b rest']; simpl.
    + by intros [= <-].
    + intros H2. eapply same_index_trans; [done|].
      eapply (IH (length rest')); [simpl; lia | done | done].
  - assert (same_index st st1) as H1
      by (apply (parse_arg_same_index st a (head rest)); by rewrite Ha).
    intros H2. eapply same_index_trans; [done|].
    eapply (IH (length rest)); [simpl; lia | done | done].
Qed.

Lemma eloArgParse_same_index st argv st' :
  eloArgParse st argv = Ok st' -> same_index st st'.
Proof.
  unfold eloArgParse.
  destruct (_ || _); [by intros [= <-]|].
  destruct (parse_loop st (drop 1 argv)) as [e|st1|st1] eqn:Hloop; [done| |].
  - intros [= <-]. apply (parse_loop_same_index (drop 1 argv)). by rewrite Hloop.
  - destruct (missing_required st1); [done|].
    intros [= <-]. apply (parse_loop_same_index (drop 1 argv)). by rewrite Hloop.
Qed.

(** A successful registration allocates one record, enters it under the
    keys given and moves no key that was in the table. *)
Lemma eloArgAdd_Ok st short long descr vt st' :
  eloArgAdd st short long descr vt = Ok st' ->
  length (heap st') = S (length (heap st)) /\
  (forall k q, hashTable st !! k = Some q -> hashTable st' !! k = Some q) /\
  (forall s, short = Some s -> hashTable st' !! s = Some (length (heap st))) /\
  (forall l, long = Some l -> hashTable st' !! l = Some (length (heap st))).
Proof.
  unfold eloArgAdd.
  destruct descr as [d|]; [|by destruct short, long].
  destruct (ht_has (hashTable st) short) eqn:Hs; [by destruct short, long|].
  destruct (ht_has (hashTable st) long) eqn:Hl; [by destruct short, long|].
  destruct (too_long _ short); [by destruct short, long|].
  destruct (too_long _ long); [by destruct short, long|].
  destruct (too_long _ (Some d)); [by destruct short, long|].
  assert (forall key k q, ht_has (hashTable st) (Some key) = false ->
            hashTable st !! k = Some q -> key <> k) as Hfresh.
  { intros key k q Hhas Hk ->. simpl in Hhas. by rewrite Hk in Hhas. }
  destruct short as [s|], long as [l|]; [| | |done]; intros [= <-]; simpl;
    unfold ht_set; rewrite length_app; simpl.
  - split; [lia|]. split; [|split].
    + intros k q Hk. rewrite !lookup_insert_ne by by eapply Hfresh. done.
    + intros ? [= <-]. destruct (decide (l = s)) as [->|Hne].
      * by rewrite lookup_insert_eq.
      * by rewrite lookup_insert_ne, lookup_insert_eq.
    + intros ? [= <-]. by rewrite lookup_insert_eq.
  - split; [lia|]. split; [|split]; [| |done].
    + intros k q Hk. rewrite !lookup_insert_ne by by eapply Hfresh. done.
    + intros ? [= <-]. by rewrite lookup_insert_eq.
  - split; [lia|]. split; [|split]; [|done|].
    + intros k q Hk. rewrite !lookup_insert_ne by by eapply Hfresh. done.
    + intros ? [= <-]. by rewrite lookup_insert_eq.
Qed.

(** A key that points to an allocated record keeps doing so, to the same
    record, through every later call. *)
Lemma run_keeps_key cs :
  forall st st' k p,
    run st cs = Ok st' ->
    hashTable st !! k = Some p -> (p < length (heap st))%nat ->
    hashTable st' !! k = Some p /\ (p < length (heap st'))%nat.
Proof.
  induction cs as [|c cs IH]; intros st st' k p; simpl.
  - by intros [= <-].
  - destruct (do_call st c) as [st1|e] eqn:Hc; [|done].
    intros Hrun Hk Hlt. apply (IH st1); [done| |].
    + destruct c as [short long descr vt | argv]; simpl in Hc.
      * by apply (eloArgAdd_Ok _ _ _ _ _ _ Hc).
      * apply eloArgParse_same_index in Hc as [-> _]. done.
    + destruct c as [short long descr vt | argv]; simpl in Hc.
      * apply eloArgAdd_Ok in Hc as [-> _]. lia.
      * apply eloArgParse_same_index in Hc as [_ ->]. done.
Qed.

(** ** Combined short flags *)

(** A short element whose first character is the key of a NONE option:
    every character of the element, whatever it is, marks that one option
    once more, since the key looked up stays the first character. *)
Lemma short_loop_repeats_first_key opt :
  forall st k p o next,
    lookup_option st k = Some (p, o) ->
    valueType o = ARG_NONE ->
    opt <> "" ->
    short_loop st k opt next
    = Next (store st p (Nat.iter (String.length opt) mark o)) false.
Proof.
  induction opt as [|c rest IH]; intros st k p o next Hlook Hvt Hne; [done|].
  simpl short_loop. rewrite Hlook, Hvt.
  destruct rest as [|c' rest'].
  - done.
  - rewrite (IH (store st p (mark o)) k p (mark o)); [|by eapply lookup_option_store_eq|done|done].
    rewrite store_store. do 2 f_equal.
    change (String.length (String c (String c' rest')))
      with (S (String.length (String c' rest'))).
    by rewrite Nat.iter_succ_r.
Qed.

(** * The claims *)

(** C1. The claim against the code, at [-abc] with the three NONE options
    [a], [b] and [c] registered: the parse succeeds with [a] counted three
    times and [b] and [c] not provided, where the claim has each of the three
    provided with count 1; and at [-ax], with [x] not registered, the parse
    succeeds with [a] counted twice, where the claim has an [UnknownOption]
    failure that names [x]. *)
Theorem combined_short_flags_look_up_first_key_only :
  let st' := store abc_registry 0 (mark (mark (mark (flag_option "a" 0)))) in
  eloArgParse abc_registry ["prog"; "-abc"] = Ok st' /\
  eloArgCount st' "a" = 3 /\
  eloArgHas st' "b" = false /\ eloArgCount st' "b" = 0 /\
  eloArgHas st' "c" = false /\ eloArgCount st' "c" = 0 /\
  eloArgParse abc_registry ["prog"; "-ax"]
    = Ok (store abc_registry 0 (mark (mark (flag_option "a" 0)))) /\
  eloArgParse abc_registry ["prog"; "-xa"] = Err (UnknownOption "x").
Proof. repeat split. Qed.

(** C2. At an element equal to the double dash the parser returns at once
    and with success, for every registry (so also for one where a REQUIRED
    option has no value): the registry is the one reached before the element,
    what follows the element has no part in the outcome, the loop never runs
    to its end, and no missing REQUIRED option is reported. *)
Theorem double_dash_stops_parsing (st : EloArg) (pre rest : list string) :
  parse_loop st ("--" :: rest) = Returned st /\
  (forall prog, eloArgParse st (prog :: "--" :: rest) = Ok st) /\
  (forall rest', parse_loop st (pre ++ "--" :: rest') = parse_loop st (pre ++ "--" :: rest)) /\
  (forall st', parse_loop st (pre ++ "--" :: rest) <> Finished st') /\
  (forall prog, eloArgParse st (prog :: pre ++ "--" :: rest) <> Err MissingRequired).
Proof.
  split; [done|]. split.
  { intros prog. rewrite eloArgParse_cons. by case_bool_decide. }
  destruct (parse_loop_until_double_dash pre st rest) as [Hrest Hfin].
  split; [done|]. split; [done|].
  intros prog. rewrite eloArgParse_cons.
  case_bool_decide; [done|].
  destruct (parse_loop st (pre ++ "--" :: rest)) as [e|st'|st'] eqn:Hloop.
  - intros [= ->]. by eapply parse_loop_not_missing_required.
  - done.
  - by destruct (Hfin st').
Qed.

(** The registry with the single REQUIRED option [port] has that option
    without value, and the double dash still ends the parse with success. *)
Example double_dash_skips_validation :
  missing_required port_registry = true /\
  eloArgParse port_registry ["prog"; "--"; "--port"; "8080"] = Ok port_registry.
Proof. split; reflexivity. Qed.

(** C3, as stated, fails: with no element at all in [argv] the parser
    returns before the scan for REQUIRED options, although the registry
    holds a REQUIRED option without value. *)
Lemma parse_no_argv_is_not_missing_required :
  missing_required port_registry = true /\
  eloArgParse port_registry [] = Ok port_registry /\
  eloArgParse port_registry [] <> Err MissingRequired.
Proof. split; [reflexivity|]. split; [reflexivity | discriminate]. Qed.

(** C3, amended. For a registry with a REQUIRED option whose value is
    absent: parsing the vector that holds only the program name fails with
    [MissingRequired], and parsing the vector without any element is a no-op
    that succeeds. *)
Theorem parse_program_name_only_missing_required
    (st : EloArg) (key : string) (p : loc) (o : EloArgOption) (prog : string) :
  hashTable st !! key = Some p ->
  heap st !! p = Some o ->
  valueType o = ARG_REQUIRED ->
  value o = None ->
  eloArgParse st [prog] = Err MissingRequired /\
  eloArgParse st [] = Ok st.
Proof.
  intros Hk Hp Hvt Hval.
  assert (missing_required st = true) as Hmiss
    by (apply missing_required_spec; eauto 10).
  split; [|done].
  rewrite eloArgParse_cons. simpl.
  case_bool_decide as Hsize; [by apply missing_required_nonempty in Hsize|].
  by rewrite Hmiss.
Qed.

Lemma parse_program_name_only_missing_required_witness :
  eloArgParse port_registry ["prog"] = Err MissingRequired /\
  eloArgParse port_registry [] = Ok port_registry.
Proof.
  apply (parse_program_name_only_missing_required port_registry "port" 0%nat port_option "prog");
    reflexivity.
Defined.

(** Where the lookup does yield an INFO option, that is for a long element
    without ['='] and for the first character of a short element, the record
    is marked provided, its count becomes the successor of the old one
    modulo [2 ^ 64], and the parser returns with success at once: whatever
    follows is not looked at and the scan for REQUIRED options does not
    run. *)
Lemma looked_up_info_option_stops_parsing
    (st : EloArg) (a key : string) (p : loc) (o : EloArgOption) (prog : string)
    (rest : list string) :
  (a = "--" +:+ key /\ key <> "" /\ strchr_split "=" key = None) \/
  (exists c tail, a = String "-" (String c tail) /\ c <> "-"%char /\ key = String c "") ->
  lookup_option st key = Some (p, o) ->
  valueType o = ARG_INFO ->
  let o' := mkEloArgOption (shortOption o) (longOption o) (description o) ARG_INFO
              (uniqueStrId o) (value o) true ((count o + 1) mod 2 ^ 64) (refCount o) in
  let st' := store st p o' in
  parse_arg st a (head rest) = Return st' /\
  parse_loop st (a :: rest) = Returned st' /\
  eloArgParse st (prog :: a :: rest) = Ok st' /\
  lookup_option st' key = Some (p, o') /\
  eloArgHas st' key = true /\
  eloArgCount st' key = (count o + 1) mod 2 ^ 64 /\
  (0 <= count o < 2 ^ 64 - 1 -> eloArgCount st' key = count o + 1).
Proof.
  intros Hform Hlook Hvt o' st'.
  assert (o' = mark o) as Hmark.
  { unfold o', mark, size_t_incr, SIZE_MOD. by rewrite Hvt. }
  assert (parse_arg st a (head rest) = Return st') as Harg.
  { unfold st'. rewrite Hmark.
    destruct Hform as [(-> & Hkey & Heq) | (c & tail & -> & Hc & ->)].
    - rewrite parse_arg_long, Heq by done.
      unfold long_spaced. by rewrite Hlook, Hvt.
    - rewrite parse_arg_short by done. simpl. by rewrite Hlook, Hvt. }
  assert (lookup_option st' key = Some (p, o')) as Hlook'
    by (by eapply lookup_option_store_eq).
  split; [done|]. split; [by apply parse_loop_return|].
  split.
  { rewrite eloArgParse_cons, (parse_loop_return _ _ _ _ Harg).
    apply lookup_option_Some in Hlook as [Hk _].
    rewrite bool_decide_eq_false_2; [done|]. by eapply ht_count_nonempty. }
  split; [done|].
  assert (eloArgCount st' key = (count o + 1) mod 2 ^ 64) as Hcount.
  { unfold eloArgCount. fold (lookup_option st' key). by rewrite Hlook'. }
  split.
  { unfold eloArgHas. fold (lookup_option st' key). by rewrite Hlook'. }
  split; [done|].
  intros Hrange. rewrite Hcount. apply Z.mod_small. lia.
Qed.

Example looked_up_info_option_stops_parsing_at_help :
  eloArgParse help_port_registry ["prog"; "--help"; "--bogus"]
  = Ok (store help_port_registry 1
          (mkEloArgOption "h" "help" "Displays help information." ARG_INFO 1 None true 1 2)).
Proof.
  destruct (looked_up_info_option_stops_parsing help_port_registry "--help" "help" 1%nat
              help_option "prog" ["--bogus"]) as (_ & _ & Hparse & _).
  - left. split; [reflexivity|]. split; [discriminate | reflexivity].
  - reflexivity.
  - reflexivity.
  - exact Hparse.
Qed.

(** The same parse without the INFO element fails on the unknown option,
    and with nothing but the program name on the unset REQUIRED option. *)
Example info_option_is_what_stops :
  eloArgParse help_port_registry ["prog"; "--bogus"] = Err (UnknownOption "--bogus") /\
  eloArgParse help_port_registry ["prog"; "-h"; "--bogus"]
    = Ok (store help_port_registry 1 (mark help_option)) /\
  eloArgParse help_port_registry ["prog"] = Err MissingRequired.
Proof. repeat split. Qed.

(** C4. The claim against the code, at [-vh] with [v] a NONE option, [h]
    an INFO option and [port] a REQUIRED option without value.  The claim
    has the character [h] resolve to the INFO option, which is then provided
    with count 1, and the parse stop with success, the REQUIRED scan not
    run.  The code looks up [v] at both characters: [v] is counted twice,
    [h] stays not provided with count 0, the loop goes on to the next
    element, and the parse ends in [MissingRequired], or in the failure of a
    later element.  With the INFO character first, [-hv], the parse stops
    with success as claimed. *)
Theorem info_option_behind_flag_is_not_looked_up :
  let st' := store verbose_help_port_registry 2
               (mkEloArgOption "v" "verbose" "Increase verbosity level." ARG_NONE 2
                  None true 2 2) in
  parse_arg verbose_help_port_registry "-vh" None = Next st' false /\
  parse_loop verbose_help_port_registry ["-vh"] = Finished st' /\
  eloArgHas st' "h" = false /\ eloArgCount st' "h" = 0 /\
  eloArgHas st' "help" = false /\
  eloArgHas st' "v" = true /\ eloArgCount st' "v" = 2 /\
  eloArgParse verbose_help_port_registry ["prog"; "-vh"] = Err MissingRequired /\
  eloArgParse verbose_help_port_registry ["prog"; "-vh"; "--bogus"]
    = Err (UnknownOption "--bogus") /\
  eloArgParse verbose_help_port_registry ["prog"; "-hv"; "--bogus"]
    = Ok (store verbose_help_port_registry 1
            (mkEloArgOption "h" "help" "Displays help information." ARG_INFO 1
               None true 1 2)).
Proof. repeat split. Qed.

(** C5. With [port] a REQUIRED option that is also reachable as [p], fresh
    from registration, the vectors [--port v], [--port=v] and [-pv] (for
    ["8080"] and any other value that is not empty and does not start with a
    dash) lead to one and the same registry, provided no other REQUIRED
    option is left without value: in it the value of [port] is [v], the
    option is provided and its count is 1. *)
Theorem port_forms_equivalent
    (st : EloArg) (p : loc) (o : EloArgOption) (prog v : string) :
  hashTable st !! "port" = Some p ->
  hashTable st !! "p" = Some p ->
  heap st !! p = Some o ->
  valueType o = ARG_REQUIRED ->
  count o = 0 ->
  is_empty v = false ->
  starts_with_dash v = false ->
  missing_required (store st p (set_value v (mark o))) = false ->
  let st' := store st p (set_value v (mark o)) in
  eloArgParse st [prog; "--port"; v] = Ok st' /\
  eloArgParse st [prog; "--port=" +:+ v] = Ok st' /\
  eloArgParse st [prog; "-p" +:+ v] = Ok st' /\
  eloArgGet st' "port" = Some v /\
  eloArgHas st' "port" = true /\
  eloArgCount st' "port" = 1 /\
  eloArgGet st' "p" = Some v /\
  eloArgHas st' "p" = true /\
  eloArgCount st' "p" = 1.
Proof.
  intros Hport Hp Ho Hvt Hcount Hne Hdash Hmiss st'.
  assert (takes_value o = true) as Htv by (unfold takes_value; by rewrite Hvt).
  assert (forall occ, occ_for (hashTable st) p occ = true -> occ_value occ = v ->
            eloArgParse st (prog :: occ_args occ) = Ok st') as Hform.
  { intros occ Hocc Hval. rewrite eloArgParse_cons.
    rewrite bool_decide_eq_false_2 by by eapply ht_count_nonempty.
    rewrite <- (app_nil_r (occ_args occ)).
    rewrite (parse_loop_occurrence st p o) by done.
    rewrite Hval. cbn [parse_loop]. by rewrite Hmiss. }
  split; [|split; [|split]].
  - apply (Hform (LongSpaced "port" v)); [|done].
    unfold occ_for. simpl. by rewrite Hdash, bool_decide_eq_true_2.
  - apply (Hform (LongInline "port" v)); [|done].
    unfold occ_for. simpl. by rewrite Hne, bool_decide_eq_true_2.
  - apply (Hform (ShortAttached "p" v)); [|done].
    unfold occ_for. simpl. by rewrite Hne, bool_decide_eq_true_2.
  - assert (forall key, hashTable st !! key = Some p ->
              lookup_option st' key = Some (p, set_value v (mark o))) as Hlook.
    { intros key Hkey. apply (lookup_option_store_eq st key p o).
      by apply lookup_option_Some. }
    unfold eloArgGet, eloArgHas, eloArgCount.
    rewrite !(Hlook "port" Hport), !(Hlook "p" Hp). simpl.
    unfold size_t_incr. rewrite Hcount. done.
Qed.

Lemma port_forms_equivalent_witness :
  eloArgParse port_registry ["prog"; "--port"; "8080"]
    = eloArgParse port_registry ["prog"; "--port=8080"] /\
  eloArgParse port_registry ["prog"; "--port=8080"]
    = eloArgParse port_registry ["prog"; "-p8080"] /\
  eloArgGet (store port_registry 0 (set_value "8080" (mark port_option))) "port"
    = Some "8080".
Proof.
  destruct (port_forms_equivalent port_registry 0%nat port_option "prog" "8080")
    as (H1 & H2 & H3 & H4 & _).
  - reflexivity.
  - reflexivity.
  - reflexivity.
  - reflexivity.
  - reflexivity.
  - reflexivity.
  - reflexivity.
  - reflexivity.
  - split; [|split].
    + exact (eq_trans H1 (eq_sym H2)).
    + exact (eq_trans H2 (eq_sym H3)).
    + exact H4.
Defined.

(** C6. An option registered under a short and a long key: after any
    further calls of add and parse that the process survives, both keys lead
    to one pointer and so to one record, the three accessors agree on the two
    keys, and whatever is written to the record is read back through either
    key. *)
Theorem aliases_share_one_record
    (st : EloArg) (s l : string) (descr : option string) (vt : ArgValueType)
    (st1 : EloArg) (cs : list call) (st2 : EloArg) :
  eloArgAdd st (Some s) (Some l) descr vt = Ok st1 ->
  run st1 cs = Ok st2 ->
  exists p o,
    lookup_option st2 s = Some (p, o) /\
    lookup_option st2 l = Some (p, o) /\
    eloArgHas st2 s = eloArgHas st2 l /\
    eloArgGet st2 s = eloArgGet st2 l /\
    eloArgCount st2 s = eloArgCount st2 l /\
    (forall o', lookup_option (store st2 p o') s = Some (p, o') /\
                lookup_option (store st2 p o') l = Some (p, o')).
Proof.
  intros Hadd Hrun.
  apply eloArgAdd_Ok in Hadd as (Hlen & _ & Hs & Hl).
  specialize (Hs s eq_refl). specialize (Hl l eq_refl).
  set (p := length (heap st)) in *.
  assert (p < length (heap st1))%nat as Hlt by lia.
  destruct (run_keeps_key cs st1 st2 s p Hrun Hs Hlt) as [Hs2 Hlt2].
  destruct (run_keeps_key cs st1 st2 l p Hrun Hl Hlt) as [Hl2 _].
  destruct (lookup_lt_is_Some_2 (heap st2) p Hlt2) as [o Ho].
  assert (lookup_option st2 s = Some (p, o)) as Hls by by apply lookup_option_Some.
  assert (lookup_option st2 l = Some (p, o)) as Hll by by apply lookup_option_Some.
  exists p, o. unfold eloArgHas, eloArgGet, eloArgCount. rewrite Hls, Hll.
  repeat split; by eapply lookup_option_store_eq.
Qed.

Lemma aliases_share_one_record_witness :
  exists p o,
    lookup_option (store help_port_registry 0 (set_value "8080" (mark port_option))) "p"
      = Some (p, o) /\
    lookup_option (store help_port_registry 0 (set_value "8080" (mark port_option))) "port"
      = Some (p, o).
Proof.
  destruct (aliases_share_one_record eloArgInit "p" "port"
              (Some "Specifies the port number to listen on.") ARG_REQUIRED
              port_registry
              [CallAdd (Some "h") (Some "help") (Some "Displays help information.") ARG_INFO;
               CallParse ["prog"; "-p"; "8080"]]
              (store help_port_registry 0 (set_value "8080" (mark port_option))))
    as (p & o & Hs & Hl & _).
  - reflexivity.
  - reflexivity.
  - exists p, o. split; [exact Hs | exact Hl].
Defined.

(** C7. An element [--name=inlineValue] whose name resolves to a registered
    option: for an OPTIONAL or REQUIRED option an empty inline value is a
    [MissingValue] failure, and a non-empty one becomes the value of the
    record, which is marked provided with its count incremented, after which
    the loop goes on; for a NONE or INFO option the element is an
    [UnexpectedValue] failure. *)
Theorem long_inline_value
    (st : EloArg) (name v : string) (p : loc) (o : EloArgOption) (prog : string)
    (rest : list string) :
  strchr_split "=" name = None ->
  lookup_option st name = Some (p, o) ->
  (valueType o = ARG_OPTIONAL \/ valueType o = ARG_REQUIRED -> v = "" ->
     parse_arg st ("--" +:+ name +:+ "=" +:+ v) (head rest) = Exit (MissingValue (longOption o)) /\
     eloArgParse st (prog :: ("--" +:+ name +:+ "=" +:+ v) :: rest)
       = Err (MissingValue (longOption o))) /\
  (valueType o = ARG_OPTIONAL \/ valueType o = ARG_REQUIRED -> v <> "" ->
     let st' := store st p (set_value v (mark o)) in
     parse_arg st ("--" +:+ name +:+ "=" +:+ v) (head rest) = Next st' false /\
     parse_loop st (("--" +:+ name +:+ "=" +:+ v) :: rest) = parse_loop st' rest /\
     lookup_option st' name = Some (p, set_value v (mark o)) /\
     value (set_value v (mark o)) = Some v /\
     provided (set_value v (mark o)) = true /\
     count (set_value v (mark o)) = (count o + 1) mod 2 ^ 64 /\
     eloArgGet st' name = Some v /\
     eloArgHas st' name = true /\
     eloArgCount st' name = (count o + 1) mod 2 ^ 64 /\
     (0 <= count o < 2 ^ 64 - 1 -> eloArgCount st' name = count o + 1)) /\
  (valueType o = ARG_NONE \/ valueType o = ARG_INFO ->
     parse_arg st ("--" +:+ name +:+ "=" +:+ v) (head rest) = Exit (UnexpectedValue (longOption o)) /\
     eloArgParse st (prog :: ("--" +:+ name +:+ "=" +:+ v) :: rest)
       = Err (UnexpectedValue (longOption o))).
Proof.
  intros Hname Hlook.
  assert (forall next, parse_arg st ("--" +:+ name +:+ "=" +:+ v) next = long_inline st name v)
    as Harg.
  { intros next.
    change ("--" +:+ name +:+ "=" +:+ v) with ("--" +:+ (name +:+ String "="%char v)).
    rewrite parse_arg_long by apply append_not_empty.
    by rewrite (strchr_split_app "=" name v Hname). }
  assert (bool_decide (ht_count (hashTable st) = 0%nat) = false) as Hsize.
  { apply lookup_option_Some in Hlook as [Hk _].
    apply bool_decide_eq_false_2. by eapply ht_count_nonempty. }
  split; [|split].
  - intros Hvt ->.
    assert (parse_arg st ("--" +:+ name +:+ "=" +:+ "") (head rest)
            = Exit (MissingValue (longOption o))) as Hexit.
    { rewrite Harg. unfold long_inline. rewrite Hlook. by destruct Hvt as [-> | ->]. }
    split; [done|].
    rewrite eloArgParse_cons, Hsize. by rewrite (parse_loop_exit _ _ _ _ Hexit).
  - intros Hvt Hv st'.
    assert (parse_arg st ("--" +:+ name +:+ "=" +:+ v) (head rest) = Next st' false) as Hnext.
    { rewrite Harg. unfold long_inline. rewrite Hlook.
      destruct v; [done|]. by destruct Hvt as [-> | ->]. }
    assert (lookup_option st' name = Some (p, set_value v (mark o))) as Hlook'
      by (by eapply lookup_option_store_eq).
    assert (eloArgCount st' name = (count o + 1) mod 2 ^ 64) as Hcount.
    { unfold eloArgCount. fold (lookup_option st' name). by rewrite Hlook'. }
    split; [done|]. split; [by apply parse_loop_next|].
    split; [done|]. split; [done|]. split; [done|]. split; [done|].
    split.
    { unfold eloArgGet. fold (lookup_option st' name). by rewrite Hlook'. }
    split.
    { unfold eloArgHas. fold (lookup_option st' name). by rewrite Hlook'. }
    split; [done|].
    intros Hrange. rewrite Hcount. apply Z.mod_small. lia.
  - intros Hvt.
    assert (parse_arg st ("--" +:+ name +:+ "=" +:+ v) (head rest)
            = Exit (UnexpectedValue (longOption o))) as Hexit.
    { rewrite Harg. unfold long_inline. rewrite Hlook. by destruct Hvt as [-> | ->]. }
    split; [done|].
    rewrite eloArgParse_cons, Hsize. by rewrite (parse_loop_exit _ _ _ _ Hexit).
Qed.

Lemma long_inline_value_witness :
  parse_loop port_registry ["--port=8080"]
  = Finished (store port_registry 0 (set_value "8080" (mark port_option))) /\
  eloArgCount (store port_registry 0 (set_value "8080" (mark port_option))) "port" = 1.
Proof.
  destruct (long_inline_value port_registry "port" "8080" 0%nat port_option "prog" []
              eq_refl eq_refl) as (_ & Hset & _).
  destruct (Hset (or_intror eq_refl)) as (_ & Hloop & _ & _ & _ & _ & _ & _ & _ & Hone);
    [discriminate|].
  split; [exact Hloop|].
  apply Hone. simpl. lia.
Defined.

(** C8. Registering under a key the table already holds, as the short or
    as the long spelling, fails with a configuration error and returns no
    registry; when a description is given the error is the one for a key
    that is already set, naming the short key if that one is taken and the
    long key otherwise. *)
Theorem add_duplicate_key_fails
    (st : EloArg) (short long descr : option string) (vt : ArgValueType) (k : string) :
  short = Some k \/ long = Some k ->
  is_Some (hashTable st !! k) ->
  (exists why, eloArgAdd st short long descr vt = Err (ConfigurationError why)) /\
  (forall d, descr = Some d ->
     eloArgAdd st short long descr vt =
       Err (ConfigurationError
              (if ht_has (hashTable st) short
               then ShortAlreadySet (default "" short)
               else LongAlreadySet k))).
Proof.
  intros Hkey [q Hq].
  assert (ht_has (hashTable st) short = true \/
          (ht_has (hashTable st) short = false /\ long = Some k)) as Hdup.
  { destruct Hkey as [->| ->].
    - left. simpl. by rewrite Hq.
    - destruct (ht_has (hashTable st) short); eauto. }
  assert (ht_has (hashTable st) (Some k) = true) as Hk by (simpl; by rewrite Hq).
  split.
  - unfold eloArgAdd.
    destruct descr as [d|]; [|destruct short, long; eauto].
    destruct Hdup as [Hs|[Hs ->]]; rewrite Hs; [|rewrite Hk];
      destruct short; try destruct long; eauto.
  - intros d ->. unfold eloArgAdd.
    destruct Hdup as [Hs|[Hs ->]]; rewrite Hs; [|rewrite Hk];
      destruct short; try destruct long; try done.
Qed.

Lemma add_duplicate_key_fails_witness :
  (exists why,
     eloArgAdd port_registry (Some "p") (Some "proxy") (Some "Proxy.") ARG_OPTIONAL
     = Err (ConfigurationError why)) /\
  (forall d, Some "Proxy." = Some d ->
     eloArgAdd port_registry (Some "p") (Some "proxy") (Some "Proxy.") ARG_OPTIONAL =
       Err (ConfigurationError
              (if ht_has (hashTable port_registry) (Some "p")
               then ShortAlreadySet (default "" (Some "p"))
               else LongAlreadySet "p"))).
Proof.
  apply (add_duplicate_key_fails port_registry (Some "p") (Some "proxy")
           (Some "Proxy.") ARG_OPTIONAL "p").
  - left. reflexivity.
  - exists 0%nat. reflexivity.
Defined.

(** C9. A command line of occurrences of OPTIONAL and REQUIRED options, in
    any order and each in any of the four forms, in which the option at [p]
    occurs at least once: when the loop has run over it the record at [p]
    is marked provided, holds the value of the last occurrence of that
    option, and has its count incremented once for each of its occurrences
    (a prefix of the command line gives the state after each one).  When
    that leaves no REQUIRED option without value the parse succeeds, and the
    accessors return the last value and the count under every key of the
    record. *)
Theorem repeated_option_keeps_last_value
    (st : EloArg) (p : loc) (o : EloArgOption) (ts : list (loc * occurrence))
    (occs : list occurrence) (last : occurrence) (prog : string)
    (rest : list string) :
  heap st !! p = Some o ->
  forallb (tagged_ok st) ts = true ->
  occurrences_of p ts = occs ++ [last] ->
  let n := Z.of_nat (length occs + 1) in
  let o' := mkEloArgOption (shortOption o) (longOption o) (description o)
              (valueType o) (uniqueStrId o) (Some (occ_value last)) true
              ((count o + n) mod SIZE_MOD) (refCount o) in
  let st' := apply_tagged st ts in
  parse_loop st (tagged_args ts ++ rest) = parse_loop st' rest /\
  parse_loop st (tagged_args ts) = Finished st' /\
  heap st' !! p = Some o' /\
  (missing_required st' = false ->
   eloArgParse st (prog :: tagged_args ts) = Ok st') /\
  (forall key, hashTable st !! key = Some p ->
     eloArgGet st' key = Some (occ_value last) /\
     eloArgHas st' key = true /\
     eloArgCount st' key = (count o + n) mod SIZE_MOD /\
     (0 <= count o -> count o + n < SIZE_MOD -> eloArgCount st' key = count o + n)).
Proof.
  intros Hp Hall Hoccs n o' st'.
  assert (forall l, parse_loop st (tagged_args ts ++ l) = parse_loop st' l) as Hloop
    by (intros l; by apply parse_loop_tagged).
  assert (parse_loop st (tagged_args ts) = Finished st') as Hfin.
  { rewrite <- (app_nil_r (tagged_args ts)). by rewrite Hloop. }
  assert (heap st' !! p = Some o') as Hp'.
  { unfold st'. rewrite (heap_apply_tagged p ts st o Hp), Hoccs.
    by rewrite fold_occurrences_last. }
  split; [done|]. split; [done|]. split; [done|]. split.
  - intros Hmiss. rewrite eloArgParse_cons, Hfin, Hmiss.
    destruct ts as [|[q occ] ts']; [by destruct occs|].
    simpl in Hall. apply andb_true_iff in Hall as [Hocc _].
    unfold tagged_ok, occ_for in Hocc. simpl in Hocc.
    apply andb_true_iff in Hocc as [Hocc _].
    apply andb_true_iff in Hocc as [_ Hkey%bool_decide_eq_true].
    rewrite bool_decide_eq_false_2; [done|]. by eapply ht_count_nonempty.
  - intros key Hkey.
    assert (lookup_option st' key = Some (p, o')) as Hlook.
    { apply lookup_option_Some. split; [|done].
      unfold st'. by rewrite hashTable_apply_tagged. }
    unfold eloArgGet, eloArgHas, eloArgCount. rewrite Hlook. simpl.
    repeat split. intros Hlo Hhi. apply Z.mod_small. lia.
Qed.

Lemma repeated_option_keeps_last_value_witness :
  eloArgParse port_file_registry
    ["prog"; "--port"; "1"; "-fa.txt"; "-p2"; "--file=b.txt"; "--port=3"; "-p"; "8080"]
  = Ok (apply_tagged port_file_registry
          [(0%nat, LongSpaced "port" "1"); (1%nat, ShortAttached "f" "a.txt");
           (0%nat, ShortAttached "p" "2"); (1%nat, LongInline "file" "b.txt");
           (0%nat, LongInline "port" "3"); (0%nat, ShortDetached "p" "8080")]) /\
  eloArgGet (apply_tagged port_file_registry
          [(0%nat, LongSpaced "port" "1"); (1%nat, ShortAttached "f" "a.txt");
           (0%nat, ShortAttached "p" "2"); (1%nat, LongInline "file" "b.txt");
           (0%nat, LongInline "port" "3"); (0%nat, ShortDetached "p" "8080")]) "port"
  = Some "8080".
Proof.
  destruct (repeated_option_keeps_last_value port_file_registry 0%nat port_option
              [(0%nat, LongSpaced "port" "1"); (1%nat, ShortAttached "f" "a.txt");
               (0%nat, ShortAttached "p" "2"); (1%nat, LongInline "file" "b.txt");
               (0%nat, LongInline "port" "3"); (0%nat, ShortDetached "p" "8080")]
              [LongSpaced "port" "1"; ShortAttached "p" "2"; LongInline "port" "3"]
              (ShortDetached "p" "8080") "prog" [])
    as (_ & _ & _ & Hparse & Hget).
  - reflexivity.
  - reflexivity.
  - reflexivity.
  - split.
    + apply Hparse. reflexivity.
    + apply (Hget "port"). reflexivity.
Defined.

(** The same command line, evaluated: four occurrences of [port], two of
    [file], each option with the value of its last occurrence. *)
Example repeated_options_evaluated :
  exists st',
    eloArgParse port_file_registry
      ["prog"; "--port"; "1"; "-fa.txt"; "-p2"; "--file=b.txt"; "--port=3"; "-p"; "8080"]
    = Ok st' /\
    eloArgGet st' "p" = Some "8080" /\ eloArgCount st' "port" = 4 /\
    eloArgGet st' "f" = Some "b.txt" /\ eloArgCount st' "file" = 2.
Proof. eexists. repeat split. Qed.

(** C10. An element of [argv] that is a single dash is skipped: the body of
    the loop returns the registry as it found it, reports no error, does not
    advance the cursor past the following element, and the loop goes on with
    the next element. *)
Theorem single_dash_is_skipped (st : EloArg) (next : option string) (rest : list string) :
  parse_arg st "-" next = Next st false /\
  parse_loop st ("-" :: rest) = parse_loop st rest.
Proof. split; reflexivity. Qed.

(** * Further properties of the registry and the parser *)

(** ** Registration, case by case *)

Lemma eloArgAdd_Ok_inv st short long descr vt st' :
  eloArgAdd st short long descr vt = Ok st' ->
  (is_Some short \/ is_Some long) /\
  exists d,
    descr = Some d /\
    ht_has (hashTable st) short = false /\
    ht_has (hashTable st) long = false /\
    too_long ELOARG_SHORT_OPTION_LENGTH short = false /\
    too_long ELOARG_LONG_OPTION_LENGTH long = false /\
    too_long ELOARG_DESCRIPTION_LENGTH (Some d) = false /\
    st' = {| hashTable := set_key long (length (heap st))
                            (set_key short (length (heap st)) (hashTable st));
             heap := heap st ++ [new_record short long d vt (eloarg_count st)];
             eloarg_count := uint32_incr (eloarg_count st) |}.
Proof.
  unfold eloArgAdd.
  destruct descr as [d|]; [|by destruct short, long].
  destruct (ht_has (hashTable st) short) eqn:Hs; [by destruct short, long|].
  destruct (ht_has (hashTable st) long) eqn:Hl; [by destruct short, long|].
  destruct (too_long _ short) eqn:H1; [by destruct short, long|].
  destruct (too_long _ long) eqn:H2; [by destruct short, long|].
  destruct (too_long _ (Some d)) eqn:H3; [by destruct short, long|].
  destruct short as [s|], long as [l|]; [| | |done]; intros [= <-].
  all: split; [eauto|]; exists d; by repeat split.
Qed.

Lemma eloArgAdd_Ok_intro st short long d vt :
  is_Some short \/ is_Some long ->
  ht_has (hashTable st) short = false ->
  ht_has (hashTable st) long = false ->
  too_long ELOARG_SHORT_OPTION_LENGTH short = false ->
  too_long ELOARG_LONG_OPTION_LENGTH long = false ->
  too_long ELOARG_DESCRIPTION_LENGTH (Some d) = false ->
  eloArgAdd st short long (Some d) vt =
    Ok {| hashTable := set_key long (length (heap st))
                         (set_key short (length (heap st)) (hashTable st));
          heap := heap st ++ [new_record short long d vt (eloarg_count st)];
          eloarg_count := uint32_incr (eloarg_count st) |}.
Proof.
  intros Hname Hs Hl H1 H2 H3. unfold eloArgAdd. rewrite Hs, Hl, H1, H2, H3.
  destruct short as [s|], long as [l|]; try done.
  by destruct Hname as [[? ?]|[? ?]].
Qed.

(** ** The parser changes records one mark at a time *)

Create HintDb updates.
#[local] Hint Constructors updates : updates.

Lemma short_loop_updates opt :
  forall st0 st tmpOpt next st',
    updates st0 st ->
    step_state (short_loop st tmpOpt opt next) = Some st' -> updates st0 st'.
Proof.
  induction opt as [|c rest IH]; intros st0 st tmpOpt next st' Hst; simpl.
  - by intros [= <-].
  - destruct (lookup_option st tmpOpt) as [[p o]|] eqn:Hlook; [|done].
    destruct (valueType o) eqn:Hvt.
    + apply IH. eapply updates_flag; [done..|]. unfold takes_value. by rewrite Hvt.
    + intros [= <-]. eapply updates_flag; [done..|]. unfold takes_value. by rewrite Hvt.
    + destruct rest; [destruct (detached_value next)|]; simpl; try done.
      all: intros [= <-]; eapply updates_value; [done..|].
      all: unfold takes_value; by rewrite Hvt.
    + destruct rest; [destruct (detached_value next)|]; simpl; try done.
      all: intros [= <-]; eapply updates_value; [done..|].
      all: unfold takes_value; by rewrite Hvt.
Qed.

Lemma parse_arg_updates st a next st' :
  step_state (parse_arg st a next) = Some st' -> updates st st'.
Proof.
  unfold parse_arg. destruct (String.eqb a "--"); [intros [= <-]; constructor|].
  assert (forall name v, step_state (long_inline st name v) = Some st' -> updates st st')
    as Hin.
  { intros name v. unfold long_inline.
    destruct (lookup_option st name) as [[p o]|] eqn:Hlook; [|done].
    destruct (valueType o) eqn:Hvt; try done.
    all: destruct v; [done|]; intros [= <-].
    all: eapply updates_value; [constructor|done|].
    all: unfold takes_value; by rewrite Hvt. }
  assert (forall name, step_state (long_spaced st name next) = Some st' -> updates st st')
    as Hsp.
  { intros name. unfold long_spaced.
    destruct (lookup_option st name) as [[p o]|] eqn:Hlook; [|done].
    assert (takes_value o = match valueType o with
                            | ARG_OPTIONAL | ARG_REQUIRED => true
                            | _ => false
                            end) as Htv by done.
    destruct (valueType o) eqn:Hvt; simpl.
    1,2: intros [= <-]; by eapply updates_flag; [constructor|done|].
    all: destruct (detached_value next); simpl; [|done].
    all: intros [= <-]; by eapply updates_value; [constructor|done|]. }
  assert (forall k opt, step_state (short_loop st k opt next) = Some st' -> updates st st')
    as Hsh by (intros k opt; apply short_loop_updates; constructor).
  destruct a as [|x a]; [intros [= <-]; constructor|].
  destruct x as [[] [] [] [] [] [] [] []]; try (intros [= <-]; constructor).
  destruct a as [|y a]; [intros [= <-]; constructor|].
  destruct y as [[] [] [] [] [] [] [] []]; try apply Hsh.
  destruct (strchr_split "=" a) as [[name v]|]; [apply Hin | apply Hsp].
Qed.

Lemma updates_trans st1 st2 st3 : updates st1 st2 -> updates st2 st3 -> updates st1 st3.
Proof. intros H12 H23. induction H23; eauto with updates. Qed.

Lemma parse_loop_updates args :
  forall st st', outcome_state (parse_loop st args) = Some st' -> updates st st'.
Proof.
  remember (length args) as n eqn:Hn.
  revert args Hn. induction (lt_wf n) as [n _ IH]; intros args -> st st'.
  destruct args as [|a rest]; simpl; [intros [= <-]; constructor|].
  destruct (parse_arg st a (head rest)) as [e|st1|st1 [|]] eqn:Ha; simpl.
  - done.
  - intros [= <-]. apply (parse_arg_updates st a (head rest)). by rewrite Ha.
  - assert (updates st st1) as H1
      by (apply (parse_arg_updates st a (head rest)); by rewrite Ha).
    destruct rest as [|b rest']; simpl.
    + by intros [= <-].
    + intros H2. eapply updates_trans; [done|].
      eapply (IH (length rest')); [simpl; lia | done | done].
  - assert (updates st st1) as H1
      by (apply (parse_arg_updates st a (head rest)); by rewrite Ha).
    intros H2. eapply updates_trans; [done|].
    eapply (IH (length rest)); [simpl; lia | done | done].
Qed.

Lemma eloArgParse_updates st argv st' :
  eloArgParse st argv = Ok st' -> updates st st'.
Proof.
  unfold eloArgParse.
  destruct (_ || _); [intros [= <-]; constructor|].
  destruct (parse_loop st (drop 1 argv)) as [e|st1|st1] eqn:Hloop; [done| |].
  - intros [= <-]. apply (parse_loop_updates (drop 1 argv)). by rewrite Hloop.
  - destruct (missing_required st1); [done|].
    intros [= <-]. apply (parse_loop_updates (drop 1 argv)). by rewrite Hloop.
Qed.

Lemma updates_index st st' :
  updates st st' ->
  hashTable st' = hashTable st /\ eloarg_count st' = eloarg_count st /\
  length (heap st') = length (heap st).
Proof.
  induction 1 as [|st' key p o _ IH _ _|st' key p o v _ IH _ _]; [done|..].
  all: destruct IH as (Hh & Hc & Hl); simpl; by rewrite length_insert.
Qed.

Lemma same_static_refl o : same_static o o.
Proof. by repeat split. Qed.

Lemma same_static_trans o1 o2 o3 :
  same_static o1 o2 -> same_static o2 o3 -> same_static o1 o3.
Proof. unfold same_static. intros (?&?&?&?&?&?) (?&?&?&?&?&?). repeat split; congruence. Qed.

(** What happens to the record at one place. *)
Lemma updates_record st st' :
  updates st st' ->
  forall q o, heap st !! q = Some o ->
    exists o', heap st' !! q = Some o' /\ same_static o o' /\
               (provided o = true -> provided o' = true) /\
               (is_Some (value o) -> is_Some (value o')).
Proof.
  induction 1 as [|st' key p o1 _ IH Hlook _|st' key p o1 v _ IH Hlook _]; intros q o Hq.
  - exists o. by repeat split.
  - destruct (IH q o Hq) as (o' & Hq' & Hst & Hprov & Hval).
    apply lookup_option_Some in Hlook as [_ Hp].
    destruct (decide (p = q)) as [->|Hne].
    + assert (o1 = o') as -> by congruence.
      exists (mark o'). split; [by eapply heap_store_eq|].
      split; [|done]. eapply same_static_trans; [done|]. by repeat split.
    + exists o'. by rewrite heap_store_ne.
  - destruct (IH q o Hq) as (o' & Hq' & Hst & Hprov & Hval).
    apply lookup_option_Some in Hlook as [_ Hp].
    destruct (decide (p = q)) as [->|Hne].
    + assert (o1 = o') as -> by congruence.
      exists (set_value v (mark o')). split; [by eapply heap_store_eq|].
      split; [|by eauto]. eapply same_static_trans; [done|]. by repeat split.
    + exists o'. by rewrite heap_store_ne.
Qed.

Lemma updates_record_back st st' :
  updates st st' ->
  forall q o', heap st' !! q = Some o' ->
    exists o, heap st !! q = Some o /\ same_static o o'.
Proof.
  intros Hup q o' Hq'.
  destruct (updates_index st st' Hup) as (_ & _ & Hlen).
  destruct (lookup_lt_is_Some_2 (heap st) q) as [o Hq].
  { rewrite <- Hlen. by eapply lookup_lt_Some. }
  destruct (updates_record st st' Hup q o Hq) as (o2 & Hq2 & Hst & _).
  exists o. split; [done|]. congruence.
Qed.

(** A property of single records that marking and setting a value keep is
    kept by the parser. *)
Lemma updates_Forall (P : EloArgOption -> Prop) st st' :
  (forall o, P o -> takes_value o = false -> P (mark o)) ->
  (forall o v, P o -> takes_value o = true -> P (set_value v (mark o))) ->
  updates st st' -> Forall P (heap st) -> Forall P (heap st').
Proof.
  intros Hmark Hval Hup HP.
  induction Hup as [|st' key p o _ IH Hlook Htv|st' key p o v _ IH Hlook Htv]; [done|..].
  all: apply lookup_option_Some in Hlook as [_ Hp].
  all: simpl; apply Forall_insert; [done|].
  all: pose proof (proj1 (Forall_lookup _ _) IH p o Hp); eauto.
Qed.

(** ** The invariant of reachable registries *)

Lemma lookup_set_key key p (h : gmap string loc) k :
  set_key key p h !! k = if decide (key = Some k) then Some p else h !! k.
Proof.
  destruct key as [k'|]; simpl; [|done].
  unfold ht_set. destruct (decide (Some k' = Some k)) as [Hk|Hk].
  - injection Hk as ->. by rewrite lookup_insert_eq.
  - rewrite lookup_insert_ne; [done|congruence].
Qed.

Lemma ht_has_false (h : gmap string loc) key k q :
  ht_has h key = false -> h !! k = Some q -> key <> Some k.
Proof. intros Hhas Hk ->. simpl in Hhas. by rewrite Hk in Hhas. Qed.

Lemma too_long_false bound s :
  too_long bound s = false -> (String.length (default "" s) <= bound)%nat.
Proof.
  destruct s as [s|]; simpl; [|lia].
  intros H%bool_decide_eq_false. lia.
Qed.

Lemma registry_inv_init : registry_inv eloArgInit.
Proof.
  split.
  - intros k p. simpl. by rewrite lookup_empty.
  - intros k p o. simpl. by rewrite lookup_empty.
  - intros p. simpl. lia.
  - split; [done|]. by intros [|i] o.
  - constructor.
  - constructor.
  - constructor.
Qed.

Lemma registry_inv_add st short long descr vt st' :
  registry_inv st -> eloArgAdd st short long descr vt = Ok st' -> registry_inv st'.
Proof.
  intros [Hptr Hkeys Hkeyed [Hcnt Hids] Hbuf Hval Href] Hadd.
  apply eloArgAdd_Ok_inv in Hadd
    as (Hname & d & -> & Hs & Hl & H1 & H2 & H3 & ->).
  set (n := length (heap st)).
  assert (forall k q, hashTable st !! k = Some q ->
            set_key long n (set_key short n (hashTable st)) !! k = Some q) as Hold.
  { intros k q Hk. rewrite !lookup_set_key.
    rewrite !decide_False; [done|by eapply ht_has_false..]. }
  assert (forall k q, set_key long n (set_key short n (hashTable st)) !! k = Some q ->
            (q = n /\ (short = Some k \/ long = Some k)) \/ hashTable st !! k = Some q)
    as Hnew.
  { intros k q. rewrite !lookup_set_key.
    destruct (decide (long = Some k)); [intros [= <-]; auto|].
    destruct (decide (short = Some k)); [intros [= <-]; auto|]. auto. }
  split; simpl.
  - intros k p Hk. simpl in Hk |- *. rewrite length_app. simpl.
    apply Hnew in Hk as [[-> _]|Hk]; [lia|].
    specialize (Hptr k p Hk). lia.
  - intros k p o Hk Hp. simpl in Hk, Hp.
    apply Hnew in Hk as [[-> Hk]|Hk].
    + rewrite lookup_app_r, Nat.sub_diag in Hp by done. injection Hp as <-.
      simpl. destruct Hk as [-> | ->]; eauto.
    + pose proof (Hptr k p Hk). rewrite lookup_app_l in Hp by done. eauto.
  - intros p. simpl. rewrite length_app. simpl. intros Hp.
    destruct (decide (p = n)) as [->|Hne].
    + destruct Hname as [[k ->]|[k ->]]; exists k; rewrite !lookup_set_key.
      * destruct (decide (long = Some k)); [done|]. by rewrite decide_True.
      * by rewrite decide_True.
    + destruct (Hkeyed p) as [k Hk]; [lia|]. exists k. by apply Hold.
  - split; simpl.
    + rewrite length_app. simpl. unfold uint32_incr. rewrite Hcnt.
      rewrite Zplus_mod_idemp_l. f_equal. lia.
    + intros i o Hi. destruct (decide (i < n)%nat) as [Hlt|Hge].
      * rewrite lookup_app_l in Hi by done. eauto.
      * rewrite lookup_app_r in Hi by lia.
        pose proof (lookup_lt_Some _ _ _ Hi) as Hlt. simpl in Hlt.
        assert (i = n) as -> by lia. unfold n in Hi.
        rewrite Nat.sub_diag in Hi. injection Hi as <-. simpl. by rewrite Hcnt.
  - apply Forall_app. split; [done|]. constructor; [|constructor].
    repeat split; simpl; [by apply too_long_false..|].
    by apply (too_long_false _ (Some d)).
  - apply Forall_app. split; [done|]. constructor; [|constructor].
    repeat split; simpl; done.
  - apply Forall_app. split; [done|]. constructor; [|constructor].
    unfold ref_counted, new_record, names_given. simpl.
    destruct short, long; auto.
    by destruct Hname as [[? ?]|[? ?]].
Qed.

Lemma registry_inv_updates st st' :
  registry_inv st -> updates st st' -> registry_inv st'.
Proof.
  intros [Hptr Hkeys Hkeyed [Hcnt Hids] Hbuf Hval Href] Hup.
  destruct (updates_index st st' Hup) as (Hh & Hc & Hl).
  assert (forall (P : EloArgOption -> Prop),
            (forall o o', same_static o o' -> P o -> P o') ->
            Forall P (heap st) -> Forall P (heap st')) as Hstatic.
  { intros P HP HF. apply Forall_lookup. intros q o' Hq'.
    destruct (updates_record_back st st' Hup q o' Hq') as (o & Hq & Hst).
    eapply HP; [done|]. by eapply (proj1 (Forall_lookup _ _) HF). }
  split.
  - intros k p. rewrite Hh, Hl. apply Hptr.
  - intros k p o'. rewrite Hh. intros Hk Hp'.
    destruct (updates_record_back st st' Hup p o' Hp') as (o & Hp & Hst).
    destruct Hst as (Hs1 & Hs2 & _). rewrite Hs1, Hs2. eauto.
  - intros p. rewrite Hh, Hl. apply Hkeyed.
  - split; [by rewrite Hc, Hl|].
    intros i o' Hi'.
    destruct (updates_record_back st st' Hup i o' Hi') as (o & Hi & Hst).
    destruct Hst as (_ & _ & _ & _ & Hid & _). rewrite Hid. eauto.
  - apply Hstatic; [|done].
    intros o o' (Hs1 & Hs2 & Hs3 & _). unfold fits_buffers. by rewrite Hs1, Hs2, Hs3.
  - eapply updates_Forall; [| |done|done].
    + intros o (Hflag & _ & _) Htv. split; [|split].
      * intros _. simpl. by apply Hflag.
      * done.
      * intros _ Htv'. change (takes_value (mark o)) with (takes_value o) in Htv'.
        congruence.
    + intros o v _ Htv. split; [|split].
      * change (takes_value (set_value v (mark o))) with (takes_value o). congruence.
      * done.
      * intros _ _. by eexists.
  - apply Hstatic; [|done].
    intros o o' (_ & _ & _ & _ & _ & Hr). unfold ref_counted. by rewrite Hr.
Qed.

Lemma run_registry_inv cs :
  forall st st', registry_inv st -> run st cs = Ok st' -> registry_inv st'.
Proof.
  induction cs as [|c cs IH]; intros st st' Hinv; simpl; [by intros [= <-]|].
  destruct (do_call st c) as [st1|e] eqn:Hc; [|done].
  apply IH. destruct c as [short long descr vt|argv]; simpl in Hc.
  - by eapply registry_inv_add.
  - eapply registry_inv_updates; [done|]. by eapply eloArgParse_updates.
Qed.

Lemma reachable_registry_inv st : reachable st -> registry_inv st.
Proof. intros [cs Hrun]. eapply run_registry_inv; [apply registry_inv_init|done]. Qed.

(** ** Registered keys and their records *)

(** X1. In a registry reached from a fresh one by calls of add and parse,
    every key of the table leads to an allocated record that bears the key
    as its short or as its long name, and every allocated record is found
    under one of its two names. *)
Theorem keys_and_records_agree (st : EloArg) :
  reachable st ->
  (forall k p, hashTable st !! k = Some p ->
     exists o, lookup_option st k = Some (p, o) /\
               (k = shortOption o \/ k = longOption o)) /\
  (forall p o, heap st !! p = Some o ->
     exists k, lookup_option st k = Some (p, o) /\
               (k = shortOption o \/ k = longOption o)).
Proof.
  intros [Hptr Hkeys Hkeyed _ _ _ _]%reachable_registry_inv. split.
  - intros k p Hk.
    destruct (lookup_lt_is_Some_2 (heap st) p (Hptr k p Hk)) as [o Ho].
    exists o. split; [by apply lookup_option_Some|]. by eapply Hkeys.
  - intros p o Ho.
    destruct (Hkeyed p) as [k Hk]; [by eapply lookup_lt_Some|].
    exists k. split; [by apply lookup_option_Some|]. by eapply Hkeys.
Qed.

Lemma keys_and_records_agree_witness :
  exists o, lookup_option port_registry "port" = Some (0%nat, o) /\
            ("port" = shortOption o \/ "port" = longOption o).
Proof.
  destruct (keys_and_records_agree port_registry) as [Hkey _].
  - exists [CallAdd (Some "p") (Some "port")
              (Some "Specifies the port number to listen on.") ARG_REQUIRED].
    reflexivity.
  - apply (Hkey "port" 0%nat). reflexivity.
Defined.

(** X2. The strings of every record of a reachable registry fit the
    arrays they were copied into: at most 1, 32 and 150 characters for the
    short name, the long name and the description, one less than the sizes
    of the arrays; and so every key of the table has at most 32 characters. *)
Theorem stored_strings_fit_their_arrays (st : EloArg) :
  reachable st ->
  (forall p o, heap st !! p = Some o ->
     (String.length (shortOption o) <= 1)%nat /\
     (String.length (longOption o) <= 32)%nat /\
     (String.length (description o) <= 150)%nat) /\
  (forall k p, hashTable st !! k = Some p -> (String.length k <= 32)%nat).
Proof.
  intros [Hptr Hkeys _ _ Hbuf _ _]%reachable_registry_inv.
  assert (forall p o, heap st !! p = Some o -> fits_buffers o) as Hfit
    by (intros p o; apply (proj1 (Forall_lookup _ _) Hbuf)).
  split; [exact Hfit|].
  intros k p Hk.
  destruct (lookup_lt_is_Some_2 (heap st) p (Hptr k p Hk)) as [o Ho].
  destruct (Hfit p o Ho) as (Hs & Hl & _).
  unfold ELOARG_SHORT_OPTION_LENGTH, ELOARG_LONG_OPTION_LENGTH in *.
  destruct (Hkeys k p o Hk Ho) as [-> | ->]; lia.
Qed.

Lemma stored_strings_fit_their_arrays_witness :
  (String.length "file" <= 32)%nat.
Proof.
  destruct (stored_strings_fit_their_arrays port_file_registry) as [_ Hkey].
  - exists [CallAdd (Some "p") (Some "port")
              (Some "Specifies the port number to listen on.") ARG_REQUIRED;
            CallAdd (Some "f") (Some "file") (Some "Path to the input file.") ARG_OPTIONAL].
    reflexivity.
  - apply (Hkey "file" 1%nat). reflexivity.
Defined.

(** X3. The identity token of a record is the number of registrations
    before its own, within the range of [uint32_t] (so that its decimal
    rendering has at most ten digits), and as long as there are no more than
    2^32 records two different records have different tokens. *)
Theorem identity_tokens_are_unique (st : EloArg) :
  reachable st ->
  (forall i o, heap st !! i = Some o ->
     uniqueStrId o = Z.of_nat i mod 2 ^ 32 /\ 0 <= uniqueStrId o < 2 ^ 32) /\
  (Z.of_nat (length (heap st)) <= 2 ^ 32 ->
   forall i j o o', heap st !! i = Some o -> heap st !! j = Some o' ->
     uniqueStrId o = uniqueStrId o' -> i = j).
Proof.
  intros [_ _ _ [_ Hids] _ _ _]%reachable_registry_inv. split.
  - intros i o Hi. rewrite (Hids i o Hi). split; [done|].
    apply Z.mod_pos_bound. lia.
  - intros Hlen i j o o' Hi Hj Heq.
    rewrite (Hids i o Hi), (Hids j o' Hj) in Heq.
    apply lookup_lt_Some in Hi, Hj.
    rewrite !Z.mod_small in Heq by lia. lia.
Qed.

Lemma identity_tokens_are_unique_witness :
  uniqueStrId port_option <> uniqueStrId file_option.
Proof.
  destruct (identity_tokens_are_unique port_file_registry) as [_ Huniq].
  - exists [CallAdd (Some "p") (Some "port")
              (Some "Specifies the port number to listen on.") ARG_REQUIRED;
            CallAdd (Some "f") (Some "file") (Some "Path to the input file.") ARG_OPTIONAL].
    reflexivity.
  - intros Heq.
    assert (0%nat = 1%nat) as Hne; [|discriminate Hne].
    apply (Huniq ltac:(vm_compute; discriminate) 0%nat 1%nat port_option file_option);
      [reflexivity | reflexivity | exact Heq].
Defined.

(** X4. In a reachable registry, an option that takes a value and is
    provided has a value, so that get does not return [NULL] where has
    returns true; an option of kind NONE or INFO never has a value, whatever
    has been parsed; and an option that is not provided has count 0. *)
Theorem provided_value_options_have_a_value
    (st : EloArg) (k : string) (p : loc) (o : EloArgOption) :
  reachable st ->
  lookup_option st k = Some (p, o) ->
  (takes_value o = true -> eloArgHas st k = true -> is_Some (eloArgGet st k)) /\
  (takes_value o = false -> value o = None /\ eloArgGet st k = None) /\
  (provided o = false -> value o = None /\ count o = 0).
Proof.
  intros [_ _ _ _ _ Hval _]%reachable_registry_inv Hlook.
  pose proof Hlook as [_ Hp]%lookup_option_Some.
  destruct (proj1 (Forall_lookup _ _) Hval p o Hp) as (Hflag & Hnot & Hprov).
  unfold eloArgHas, eloArgGet. rewrite Hlook.
  split; [|split; [|done]].
  - intros Htv Hhas. rewrite Hhas. by apply Hprov.
  - intros Htv. rewrite (Hflag Htv). split; [done|]. by destruct (provided o).
Qed.

Lemma provided_value_options_have_a_value_witness :
  is_Some (eloArgGet (store port_registry 0 (set_value "8080" (mark port_option))) "port").
Proof.
  destruct (provided_value_options_have_a_value
              (store port_registry 0 (set_value "8080" (mark port_option)))
              "port" 0%nat (set_value "8080" (mark port_option)))
    as (H & _ & _).
  - exists [CallAdd (Some "p") (Some "port")
              (Some "Specifies the port number to listen on.") ARG_REQUIRED;
            CallParse ["prog"; "-p"; "8080"]].
    reflexivity.
  - reflexivity.
  - apply H; reflexivity.
Defined.

(** ** What a parse leaves in place *)

(** X5. A successful parse leaves the table, the registration counter and
    the set of records as they were; in every record it leaves the names, the
    description, the kind, the identity token and the reference count, and
    it never takes back a provided mark or a value: what has answered true
    before the parse does so after it. *)
Theorem parse_only_touches_parse_results
    (st : EloArg) (argv : list string) (st' : EloArg) :
  eloArgParse st argv = Ok st' ->
  hashTable st' = hashTable st /\
  eloarg_count st' = eloarg_count st /\
  length (heap st') = length (heap st) /\
  (forall p o, heap st !! p = Some o ->
     exists o', heap st' !! p = Some o' /\
       shortOption o' = shortOption o /\ longOption o' = longOption o /\
       description o' = description o /\ valueType o' = valueType o /\
       uniqueStrId o' = uniqueStrId o /\ refCount o' = refCount o /\
       (provided o = true -> provided o' = true) /\
       (is_Some (value o) -> is_Some (value o'))) /\
  (forall k, eloArgHas st k = true -> eloArgHas st' k = true).
Proof.
  intros Hup%eloArgParse_updates.
  destruct (updates_index st st' Hup) as (Hh & Hc & Hl).
  split; [done|]. split; [done|]. split; [done|]. split.
  - intros p o Hp.
    destruct (updates_record st st' Hup p o Hp)
      as (o' & Hp' & (H1 & H2 & H3 & H4 & H5 & H6) & Hprov & Hval).
    exists o'. by repeat split.
  - intros k. unfold eloArgHas.
    destruct (lookup_option st k) as [[p o]|] eqn:Hlook; [|done].
    apply lookup_option_Some in Hlook as [Hk Hp].
    destruct (updates_record st st' Hup p o Hp) as (o' & Hp' & _ & Hprov & _).
    assert (lookup_option st' k = Some (p, o')) as ->; [|done].
    apply lookup_option_Some. by rewrite Hh.
Qed.

Lemma parse_only_touches_parse_results_witness :
  eloArgHas (apply_tagged port_file_registry
               [(0%nat, ShortDetached "p" "8080"); (1%nat, LongInline "file" "a.txt")])
    "port" = true.
Proof.
  destruct (parse_only_touches_parse_results
              (store port_file_registry 0 (set_value "8080" (mark port_option)))
              ["prog"; "--file=a.txt"]
              (apply_tagged port_file_registry
                 [(0%nat, ShortDetached "p" "8080"); (1%nat, LongInline "file" "a.txt")]))
    as (_ & _ & _ & _ & Hhas).
  - reflexivity.
  - apply (Hhas "port"). reflexivity.
Defined.

(** ** What a registration adds *)

(** X6. A successful registration on a reachable registry: under each name
    given, the new option is there with the description and the kind given,
    not provided, without value and with count 0; under every other key the
    three accessors answer as before, so that an option registered under a
    short name only is not found under any long name, and the other way
    round. *)
Theorem add_registers_a_fresh_option
    (st : EloArg) (short long descr : option string) (vt : ArgValueType) (st' : EloArg) :
  reachable st ->
  eloArgAdd st short long descr vt = Ok st' ->
  (forall k, short = Some k \/ long = Some k ->
     exists o, lookup_option st' k = Some (length (heap st), o) /\
       shortOption o = default "" short /\ longOption o = default "" long /\
       Some (description o) = descr /\ valueType o = vt /\
       value o = None /\ provided o = false /\ count o = 0 /\
       eloArgHas st' k = false /\ eloArgGet st' k = None /\ eloArgCount st' k = 0) /\
  (forall k, short <> Some k -> long <> Some k ->
     lookup_option st' k = lookup_option st k /\
     eloArgHas st' k = eloArgHas st k /\
     eloArgGet st' k = eloArgGet st k /\
     eloArgCount st' k = eloArgCount st k).
Proof.
  intros [Hptr _ _ _ _ _ _]%reachable_registry_inv Hadd.
  apply eloArgAdd_Ok_inv in Hadd as (Hname & d & -> & Hs & Hl & _ & _ & _ & ->).
  set (n := length (heap st)). split.
  - intros k Hk.
    assert (lookup_option
              {| hashTable := set_key long n (set_key short n (hashTable st));
                 heap := heap st ++ [new_record short long d vt (eloarg_count st)];
                 eloarg_count := uint32_incr (eloarg_count st) |} k
            = Some (n, new_record short long d vt (eloarg_count st))) as Hlook.
    { apply lookup_option_Some. simpl. split.
      - rewrite !lookup_set_key.
        destruct (decide (long = Some k)); [done|].
        destruct (decide (short = Some k)); [done|]. by destruct Hk.
      - by rewrite lookup_app_r, Nat.sub_diag. }
    exists (new_record short long d vt (eloarg_count st)).
    unfold eloArgHas, eloArgGet, eloArgCount. rewrite Hlook. by repeat split.
  - intros k Hks Hkl.
    assert (lookup_option
              {| hashTable := set_key long n (set_key short n (hashTable st));
                 heap := heap st ++ [new_record short long d vt (eloarg_count st)];
                 eloarg_count := uint32_incr (eloarg_count st) |} k
            = lookup_option st k) as Hlook.
    { unfold lookup_option, ht_get. simpl. rewrite !lookup_set_key.
      rewrite !decide_False by done.
      destruct (hashTable st !! k) as [q|] eqn:Hq; [|done].
      pose proof (Hptr k q Hq) as Hlt. by rewrite lookup_app_l. }
    unfold eloArgHas, eloArgGet, eloArgCount. by rewrite Hlook.
Qed.

Lemma add_registers_a_fresh_option_witness :
  eloArgHas port_file_registry "f" = false /\
  eloArgGet port_file_registry "port" = eloArgGet port_registry "port".
Proof.
  destruct (add_registers_a_fresh_option port_registry (Some "f") (Some "file")
              (Some "Path to the input file.") ARG_OPTIONAL port_file_registry)
    as [Hnew Hold].
  - exists [CallAdd (Some "p") (Some "port")
              (Some "Specifies the port number to listen on.") ARG_REQUIRED].
    reflexivity.
  - reflexivity.
  - split.
    + destruct (Hnew "f") as (o & _ & _ & _ & _ & _ & _ & _ & _ & Hhas & _).
      * left. reflexivity.
      * exact Hhas.
    + apply (Hold "port"); discriminate.
Defined.

(** X7. A registration succeeds exactly when a short or a long name is
    given, a description is given, neither name is a key of the table, and
    the short name, the long name and the description have at most 1, 32 and
    150 characters; otherwise it ends in a configuration error. *)
Theorem add_succeeds_exactly_when_well_formed
    (st : EloArg) (short long descr : option string) (vt : ArgValueType) :
  ((exists st', eloArgAdd st short long descr vt = Ok st') <->
   (is_Some short \/ is_Some long) /\
   is_Some descr /\
   (forall k, short = Some k \/ long = Some k -> hashTable st !! k = None) /\
   (String.length (default "" short) <= 1)%nat /\
   (String.length (default "" long) <= 32)%nat /\
   (String.length (default "" descr) <= 150)%nat) /\
  ((exists st', eloArgAdd st short long descr vt = Ok st') \/
   (exists why, eloArgAdd st short long descr vt = Err (ConfigurationError why))).
Proof.
  assert (forall key, ht_has (hashTable st) key = false <->
            forall k, key = Some k -> hashTable st !! k = None) as Hhas.
  { intros [k|]; simpl; [|by split].
    destruct (hashTable st !! k) eqn:Hk; split; try done.
    - intros H. specialize (H k eq_refl). congruence.
    - by intros _ ? [= <-]. }
  assert (forall bound s, too_long bound s = false <->
            (String.length (default "" s) <= bound)%nat) as Hlen.
  { intros bound [s|]; simpl; [|split; [lia|done]].
    rewrite bool_decide_eq_false. lia. }
  split.
  - split.
    + intros [st' Hadd].
      apply eloArgAdd_Ok_inv in Hadd as (Hname & d & -> & Hs & Hl & H1 & H2 & H3 & _).
      split; [done|]. split; [by eexists|]. split; [|split; [|split]].
      * intros k [Hk|Hk]; [by apply (proj1 (Hhas short) Hs)|by apply (proj1 (Hhas long) Hl)].
      * by apply (Hlen 1%nat).
      * by apply (Hlen 32%nat).
      * by apply (Hlen 150%nat (Some d)).
    + intros (Hname & [d ->] & Hfresh & H1 & H2 & H3).
      eexists. apply eloArgAdd_Ok_intro; [done|..].
      * apply Hhas. intros k Hk. apply Hfresh. by left.
      * apply Hhas. intros k Hk. apply Hfresh. by right.
      * by apply Hlen.
      * by apply Hlen.
      * by apply (Hlen _ (Some d)).
  - unfold eloArgAdd.
    destruct descr as [d|]; [|destruct short, long; eauto].
    destruct (ht_has _ short); [destruct short, long; eauto|].
    destruct (ht_has _ long); [destruct short, long; eauto|].
    destruct (too_long _ short); [destruct short, long; eauto|].
    destruct (too_long _ long); [destruct short, long; eauto|].
    destruct (too_long _ (Some d)); destruct short, long; eauto.
Qed.

(** ** Failures of the parser *)

Lemma eloArgParse_first_exit st prog a rest e :
  ht_count (hashTable st) <> 0%nat ->
  parse_arg st a (head rest) = Exit e ->
  eloArgParse st (prog :: a :: rest) = Err e.
Proof.
  intros Hsize Hexit. rewrite eloArgParse_cons.
  rewrite bool_decide_eq_false_2 by done.
  by rewrite (parse_loop_exit _ _ _ _ Hexit).
Qed.

Lemma lookup_option_None st key :
  hashTable st !! key = None -> lookup_option st key = None.
Proof. unfold lookup_option, ht_get. by intros ->. Qed.

(** X8. An element that names a key the table does not hold ends the
    parse of a registry with at least one option in an [UnknownOption]
    failure: for the long forms, with or without an inline value, the name
    printed is the element up to the ['='], and for the short form it is the
    first character of the element, whatever follows it. *)
Theorem unknown_option_is_reported
    (st : EloArg) (key prog : string) (rest : list string) :
  hashTable st !! key = None ->
  ht_count (hashTable st) <> 0%nat ->
  strchr_split "=" key = None ->
  (key <> "" ->
   eloArgParse st (prog :: ("--" +:+ key) :: rest) = Err (UnknownOption ("--" +:+ key))) /\
  (forall v,
   eloArgParse st (prog :: ("--" +:+ key +:+ "=" +:+ v) :: rest)
   = Err (UnknownOption ("--" +:+ key))) /\
  (forall c tail, key = String c "" -> c <> "-"%char ->
   eloArgParse st (prog :: String "-" (String c tail) :: rest) = Err (UnknownOption key)).
Proof.
  intros Hkey%lookup_option_None Hsize Heq. split; [|split].
  - intros Hne. apply eloArgParse_first_exit; [done|].
    rewrite parse_arg_long, Heq by done. unfold long_spaced. by rewrite Hkey.
  - intros v. apply eloArgParse_first_exit; [done|].
    change ("--" +:+ key +:+ "=" +:+ v) with ("--" +:+ (key +:+ String "="%char v)).
    rewrite parse_arg_long by apply append_not_empty.
    rewrite strchr_split_app by done. unfold long_inline. by rewrite Hkey.
  - intros c tail -> Hc. apply eloArgParse_first_exit; [done|].
    rewrite parse_arg_short by done. simpl. by rewrite Hkey.
Qed.

Lemma unknown_option_is_reported_witness :
  eloArgParse port_registry ["prog"; "--bogus"; "--port"; "1"]
  = Err (UnknownOption "--bogus").
Proof.
  destruct (unknown_option_is_reported port_registry "bogus" "prog" ["--port"; "1"])
    as (H & _ & _).
  - reflexivity.
  - vm_compute. discriminate.
  - reflexivity.
  - apply H. discriminate.
Defined.

(** X9. An option that takes a value, written in the spaced long form or
    as a short element of one character, needs the following element as its
    value: when there is none, or when it starts with a dash, the parse ends
    in a [MissingValue] failure that names the long name of the record,
    or the character of the short element. *)
Theorem detached_value_must_not_start_with_dash
    (st : EloArg) (key : string) (p : loc) (o : EloArgOption) (prog : string)
    (rest : list string) :
  lookup_option st key = Some (p, o) ->
  takes_value o = true ->
  rest = [] \/ (exists b rest', rest = b :: rest' /\ starts_with_dash b = true) ->
  (key <> "" -> strchr_split "=" key = None ->
   eloArgParse st (prog :: ("--" +:+ key) :: rest) = Err (MissingValue (longOption o))) /\
  (forall c, key = String c "" -> c <> "-"%char ->
   eloArgParse st (prog :: String "-" (String c "") :: rest) = Err (MissingValue key)).
Proof.
  intros Hlook Htv Hrest.
  assert (detached_value (head rest) = None) as Hnone.
  { destruct Hrest as [->|(b & rest' & -> & Hb)]; [done|].
    simpl. by rewrite Hb. }
  assert (ht_count (hashTable st) <> 0%nat) as Hsize.
  { apply lookup_option_Some in Hlook as [Hk _]. by eapply ht_count_nonempty. }
  unfold takes_value in Htv. split.
  - intros Hne Heq. apply eloArgParse_first_exit; [done|].
    rewrite parse_arg_long, Heq by done. unfold long_spaced.
    rewrite Hlook, Hnone. by destruct (valueType o).
  - intros c -> Hc. apply eloArgParse_first_exit; [done|].
    rewrite parse_arg_short by done. simpl.
    rewrite Hlook, Hnone. by destruct (valueType o).
Qed.

Lemma detached_value_must_not_start_with_dash_witness :
  eloArgParse port_registry ["prog"; "--port"; "-1"] = Err (MissingValue "port").
Proof.
  destruct (detached_value_must_not_start_with_dash port_registry "port" 0%nat
              port_option "prog" ["-1"]) as [H _].
  - reflexivity.
  - reflexivity.
  - right. exists "-1", []. split; reflexivity.
  - apply H; [discriminate | reflexivity].
Defined.

(** The same value is accepted in the inline and in the attached form. *)
Example dash_value_inline_or_attached :
  eloArgGet (apply_tagged port_registry [(0%nat, LongInline "port" "-1")]) "port"
    = Some "-1" /\
  eloArgParse port_registry ["prog"; "--port=-1"]
    = Ok (apply_tagged port_registry [(0%nat, LongInline "port" "-1")]) /\
  eloArgParse port_registry ["prog"; "-p-1"]
    = Ok (apply_tagged port_registry [(0%nat, LongInline "port" "-1")]).
Proof. repeat split. Qed.

(** ** Flags *)

Lemma store_same st p o : heap st !! p = Some o -> store st p o = st.
Proof.
  intros Hp. destruct st as [h hp n]. unfold store. simpl in *.
  f_equal. by apply list_insert_id.
Qed.

Lemma length_repeat_char c n : String.length (repeat_char c n) = n.
Proof. induction n as [|n IH]; simpl; [done|]. by rewrite IH. Qed.

Lemma count_iter_mark n o :
  count (Nat.iter n mark o) mod SIZE_MOD = (count o + Z.of_nat n) mod SIZE_MOD.
Proof.
  induction n as [|n IH]; [by rewrite Z.add_0_r|].
  rewrite Nat.iter_succ. unfold mark at 1. simpl count. unfold size_t_incr.
  rewrite Z.mod_mod by done.
  rewrite <- Zplus_mod_idemp_l, IH, Zplus_mod_idemp_l. f_equal. lia.
Qed.

Lemma parse_loop_single_flags n :
  forall st c p o rest,
    lookup_option st (String c "") = Some (p, o) ->
    valueType o = ARG_NONE ->
    c <> "-"%char ->
    parse_loop st (repeat (String "-" (String c "")) n ++ rest)
    = parse_loop (store st p (Nat.iter n mark o)) rest.
Proof.
  induction n as [|n IH]; intros st c p o rest Hlook Hvt Hc.
  - simpl. rewrite store_same; [done|]. by apply lookup_option_Some in Hlook as [_ ?].
  - change (repeat ?x (S n) ++ rest) with (x :: (repeat x n ++ rest)).
    rewrite (parse_loop_next st _ _ (store st p (mark o))).
    + rewrite (IH _ c p (mark o)); [|by eapply lookup_option_store_eq|done|done].
      by rewrite store_store, Nat.iter_succ_r.
    + rewrite parse_arg_short by done. simpl. by rewrite Hlook, Hvt.
Qed.

(** X10. A NONE flag under the short key [c]: the element of a dash and
    [n] times [c] and the [n] elements of a dash and [c] lead to the same
    registry, in which the flag is provided and its count has been
    incremented [n] times; no value is set and the element that follows is
    not consumed, whatever it is. *)
Theorem repeated_flag_is_counted
    (st : EloArg) (c : ascii) (p : loc) (o : EloArgOption) (n : nat)
    (rest : list string) :
  lookup_option st (String c "") = Some (p, o) ->
  valueType o = ARG_NONE ->
  c <> "-"%char ->
  (0 < n)%nat ->
  let o' := Nat.iter n mark o in
  parse_loop st (String "-" (repeat_char c n) :: rest) = parse_loop (store st p o') rest /\
  parse_loop st (repeat (String "-" (String c "")) n ++ rest)
    = parse_loop (store st p o') rest /\
  provided o' = true /\
  count o' = (count o + Z.of_nat n) mod SIZE_MOD /\
  value o' = value o.
Proof.
  intros Hlook Hvt Hc Hn o'. split; [|split].
  - apply parse_loop_next. destruct n as [|n]; [lia|]. simpl repeat_char.
    rewrite parse_arg_short by done.
    change (String c (repeat_char c n)) with (repeat_char c (S n)).
    rewrite (short_loop_repeats_first_key _ st (String c "") p o); [|done|done|done].
    by rewrite length_repeat_char.
  - by apply parse_loop_single_flags.
  - subst o'. destruct n as [|n]; [lia|]. rewrite Nat.iter_succ.
    split; [done|]. split.
    + unfold mark at 1. simpl count. unfold size_t_incr.
      rewrite <- Zplus_mod_idemp_l, count_iter_mark, Zplus_mod_idemp_l. f_equal. lia.
    + clear. simpl. induction n as [|n IH]; [done|]. by rewrite Nat.iter_succ.
Qed.

Lemma repeated_flag_is_counted_witness :
  parse_loop abc_registry ["-aaa"; "file.txt"]
    = parse_loop abc_registry ["-a"; "-a"; "-a"; "file.txt"] /\
  count (Nat.iter 3 mark (flag_option "a" 0)) = 3.
Proof.
  destruct (repeated_flag_is_counted abc_registry "a" 0%nat (flag_option "a" 0) 3
              ["file.txt"]) as (H1 & H2 & _ & Hcount & _).
  - reflexivity.
  - reflexivity.
  - discriminate.
  - lia.
  - split.
    + exact (eq_trans H1 (eq_sym H2)).
    + exact Hcount.
Defined.

(** ** What a successful parse guarantees *)

Lemma short_loop_return_inv opt :
  forall st tmpOpt next st',
    short_loop st tmpOpt opt next = Return st' ->
    exists key p o, lookup_option st' key = Some (p, o) /\
                    valueType o = ARG_INFO /\ provided o = true.
Proof.
  induction opt as [|c rest IH]; intros st tmpOpt next st'; simpl; [done|].
  destruct (lookup_option st tmpOpt) as [[p o]|] eqn:Hlook; [|done].
  destruct (valueType o) eqn:Hvt.
  - apply IH.
  - intros [= <-]. exists tmpOpt, p, (mark o).
    split; [by eapply lookup_option_store_eq|]. done.
  - destruct rest; [destruct (detached_value next)|]; done.
  - destruct rest; [destruct (detached_value next)|]; done.
Qed.

Lemma parse_arg_return_inv st a next st' :
  parse_arg st a next = Return st' ->
  a = "--" \/
  exists key p o, lookup_option st' key = Some (p, o) /\
                  valueType o = ARG_INFO /\ provided o = true.
Proof.
  unfold parse_arg. destruct (String.eqb_spec a "--") as [->|Hne]; [by left|].
  intros H. right. revert H.
  assert (forall name v, long_inline st name v <> Return st') as Hin.
  { intros name v. unfold long_inline.
    destruct (lookup_option st name) as [[p o]|]; [|done].
    destruct (valueType o); try done; by destruct v. }
  assert (forall name, long_spaced st name next = Return st' ->
            exists key p o, lookup_option st' key = Some (p, o) /\
                            valueType o = ARG_INFO /\ provided o = true) as Hsp.
  { intros name. unfold long_spaced.
    destruct (lookup_option st name) as [[p o]|] eqn:Hlook; [|done].
    destruct (valueType o) eqn:Hvt; [done| |by destruct (detached_value next)..].
    intros [= <-]. exists name, p, (mark o).
    split; [by eapply lookup_option_store_eq|]. done. }
  destruct a as [|x a]; [done|].
  destruct x as [[] [] [] [] [] [] [] []]; try done.
  destruct a as [|y a]; [done|].
  destruct y as [[] [] [] [] [] [] [] []]; try apply short_loop_return_inv.
  destruct (strchr_split "=" a) as [[name v]|]; [|apply Hsp].
  intros H. by destruct (Hin name v).
Qed.

Lemma parse_loop_returned_inv args :
  forall st st',
    parse_loop st args = Returned st' ->
    In "--" args \/
    exists key p o, lookup_option st' key = Some (p, o) /\
                    valueType o = ARG_INFO /\ provided o = true.
Proof.
  remember (length args) as n eqn:Hn.
  revert args Hn. induction (lt_wf n) as [n _ IH]; intros args -> st st'.
  destruct args as [|a rest]; simpl; [done|].
  destruct (parse_arg st a (head rest)) as [e|st1|st1 [|]] eqn:Ha.
  - done.
  - intros [= <-]. apply parse_arg_return_inv in Ha as [->|?]; auto.
  - destruct rest as [|b rest']; [done|]. intros Hloop.
    destruct (IH (length rest') ltac:(simpl; lia) rest' eq_refl st1 st' Hloop);
      simpl; auto.
  - intros Hloop.
    destruct (IH (length rest) ltac:(simpl; lia) rest eq_refl st1 st' Hloop); auto.
Qed.

(** How a parse can have succeeded. *)
Lemma eloArgParse_Ok_cases st prog args st' :
  eloArgParse st (prog :: args) = Ok st' ->
  ht_count (hashTable st) = 0%nat \/
  In "--" args \/
  (exists key p o, lookup_option st' key = Some (p, o) /\
                   valueType o = ARG_INFO /\ provided o = true) \/
  missing_required st' = false.
Proof.
  rewrite eloArgParse_cons. case_bool_decide as Hsize; [by left|].
  destruct (parse_loop st args) as [e|st1|st1] eqn:Hloop; [done| |].
  - intros [= <-]. right. apply parse_loop_returned_inv in Hloop as [?|?]; auto.
  - destruct (missing_required st1) eqn:Hmiss; [done|]. intros [= <-]. auto.
Qed.

Lemma info_provided_intro st key p o :
  lookup_option st key = Some (p, o) ->
  valueType o = ARG_INFO -> provided o = true -> info_provided st = true.
Proof.
  intros [_ Hp]%lookup_option_Some Hvt Hprov.
  apply existsb_exists. exists o. split.
  - by eapply list_elem_of_In, list_elem_of_lookup_2.
  - by rewrite bool_decide_eq_true_2, Hprov.
Qed.

(** A REQUIRED option with a value in a registry that keeps value and
    provided mark together is provided, and get returns its value. *)
Lemma required_value_is_returned st key p o :
  Forall value_coherent (heap st) ->
  missing_required st = false ->
  lookup_option st key = Some (p, o) ->
  valueType o = ARG_REQUIRED ->
  eloArgHas st key = true /\ is_Some (eloArgGet st key).
Proof.
  intros Hval Hmiss Hlook Hvt.
  pose proof Hlook as [Hk Hp]%lookup_option_Some.
  destruct (proj1 (Forall_lookup _ _) Hval p o Hp) as (_ & Hnot & _).
  assert (is_Some (value o)) as Hsome.
  { destruct (value o) eqn:Hv; [by eexists|].
    assert (missing_required st = true); [|congruence].
    apply missing_required_spec. eauto 10. }
  assert (provided o = true) as Hprov.
  { destruct (provided o) eqn:Hpr; [done|].
    destruct (Hnot eq_refl) as [Hnone _]. rewrite Hnone in Hsome. by destruct Hsome. }
  unfold eloArgHas, eloArgGet. by rewrite Hlook, Hprov.
Qed.

(** X11. After a successful parse of a reachable registry in which no
    element is the double dash and after which no INFO option is provided,
    every REQUIRED option is provided and has a value: get returns it
    under every key of the option. *)
Theorem successful_parse_fills_required
    (st : EloArg) (prog : string) (args : list string) (st' : EloArg) :
  reachable st ->
  eloArgParse st (prog :: args) = Ok st' ->
  ~ In "--" args ->
  info_provided st' = false ->
  forall key p o,
    lookup_option st' key = Some (p, o) ->
    valueType o = ARG_REQUIRED ->
    eloArgHas st' key = true /\ is_Some (eloArgGet st' key).
Proof.
  intros Hreach Hparse Hdd Hinfo key p o Hlook Hvt.
  assert (registry_inv st') as [_ _ _ _ _ Hval _].
  { eapply registry_inv_updates; [by apply reachable_registry_inv|].
    by eapply eloArgParse_updates. }
  eapply required_value_is_returned; [done| |done|done].
  pose proof (updates_index _ _ (eloArgParse_updates _ _ _ Hparse)) as (Hh & _).
  destruct (eloArgParse_Ok_cases _ _ _ _ Hparse)
    as [Hsize|[?|[(k & q & oi & Hq & Hi & Hpr)|?]]]; [|done| |done].
  - apply lookup_option_Some in Hlook as [Hk _]. rewrite Hh in Hk.
    by destruct (ht_count_nonempty _ _ _ Hk).
  - rewrite (info_provided_intro st' k q oi) in Hinfo by done. done.
Qed.

Lemma successful_parse_fills_required_witness :
  eloArgHas (apply_tagged port_file_registry [(0%nat, LongSpaced "port" "80")]) "p" = true /\
  is_Some (eloArgGet (apply_tagged port_file_registry [(0%nat, LongSpaced "port" "80")]) "p").
Proof.
  apply (successful_parse_fills_required port_file_registry "prog" ["--port"; "80"]
           (apply_tagged port_file_registry [(0%nat, LongSpaced "port" "80")]))
    with (p := 0%nat) (o := set_value "80" (mark port_option)).
  - exists [CallAdd (Some "p") (Some "port")
              (Some "Specifies the port number to listen on.") ARG_REQUIRED;
            CallAdd (Some "f") (Some "file") (Some "Path to the input file.") ARG_OPTIONAL].
    reflexivity.
  - reflexivity.
  - simpl. intros [H|[H|[]]]; discriminate.
  - reflexivity.
  - reflexivity.
  - reflexivity.
Defined.

(** ** Release *)

Lemma table_pointers_insert (h : gmap string loc) k p :
  h !! k = None ->
  (map_to_list (<[k := p]> h)).*2 ≡ₚ p :: (map_to_list h).*2.
Proof. intros Hk. by rewrite map_to_list_insert. Qed.

Lemma count_occ_unallocated st q :
  pointers_allocated st -> (length (heap st) <= q)%nat ->
  count_occ Nat.eq_dec (table_pointers st) q = 0%nat.
Proof.
  intros Hptr Hq. apply (proj1 (count_occ_not_In Nat.eq_dec _ _)).
  intros ([k p] & Hp & Hin)%list_elem_of_In%list_elem_of_fmap. simpl in Hp. subst p.
  apply elem_of_map_to_list in Hin. specialize (Hptr k q Hin). lia.
Qed.

Lemma keys_counted_add st short long descr vt st' :
  registry_inv st -> keys_counted st ->
  distinct_names (CallAdd short long descr vt) = true ->
  eloArgAdd st short long descr vt = Ok st' -> keys_counted st'.
Proof.
  intros [Hptr _ _ _ _ _ _] Hcnt Hdist Hadd.
  apply eloArgAdd_Ok_inv in Hadd as (Hname & d & -> & Hs & Hl & _ & _ & _ & ->).
  set (n := length (heap st)).
  assert (forall key, ht_has (hashTable st) key = false ->
            forall k, key = Some k -> hashTable st !! k = None) as Hfresh.
  { intros key Hhas k ->. simpl in Hhas. by destruct (hashTable st !! k). }
  assert (table_pointers
            {| hashTable := set_key long n (set_key short n (hashTable st));
               heap := heap st ++ [new_record short long d vt (eloarg_count st)];
               eloarg_count := uint32_incr (eloarg_count st) |}
          ≡ₚ repeat n (Z.to_nat (names_given short long)) ++ table_pointers st) as Hperm.
  { unfold table_pointers, names_given. simpl.
    destruct short as [s|], long as [l|]; simpl; unfold ht_set.
    - rewrite table_pointers_insert, table_pointers_insert;
        [done|exact (Hfresh _ Hs s eq_refl)|].
      rewrite lookup_insert_ne; [exact (Hfresh _ Hl l eq_refl)|].
      simpl in Hdist. apply negb_true_iff in Hdist.
      by apply String.eqb_neq in Hdist.
    - rewrite table_pointers_insert; [done|exact (Hfresh _ Hs s eq_refl)].
    - rewrite table_pointers_insert; [done|exact (Hfresh _ Hl l eq_refl)].
    - done. }
  intros p o Hp. simpl in Hp.
  rewrite (proj1 (Permutation_count_occ Nat.eq_dec _ _) Hperm).
  rewrite count_occ_app.
  destruct (decide (p < n)%nat) as [Hlt|Hge].
  - rewrite lookup_app_l in Hp by done.
    rewrite (proj1 (count_occ_not_In Nat.eq_dec _ _)).
    + by apply Hcnt.
    + intros Hin%repeat_spec. lia.
  - rewrite lookup_app_r in Hp by lia.
    pose proof (lookup_lt_Some _ _ _ Hp) as Hlt. simpl in Hlt.
    assert (p = n) as -> by lia.
    unfold n in Hp. rewrite Nat.sub_diag in Hp. injection Hp as <-. simpl.
    rewrite count_occ_unallocated by (done || lia).
    rewrite count_occ_repeat_eq by done.
    unfold names_given. destruct short, long; simpl; lia.
Qed.

Lemma keys_counted_updates st st' :
  keys_counted st -> updates st st' -> keys_counted st'.
Proof.
  intros Hcnt Hup p o' Hp'.
  destruct (updates_index st st' Hup) as (Hh & _ & _).
  destruct (updates_record_back st st' Hup p o' Hp') as (o & Hp & Hst).
  destruct Hst as (_ & _ & _ & _ & _ & Hr).
  unfold table_pointers. rewrite Hh, Hr. by apply Hcnt.
Qed.

Lemma run_keys_counted cs :
  forall st st',
    registry_inv st -> keys_counted st ->
    forallb distinct_names cs = true ->
    run st cs = Ok st' -> keys_counted st'.
Proof.
  induction cs as [|c cs IH]; intros st st' Hinv Hcnt Hdist; simpl;
    [by intros [= <-]|].
  simpl in Hdist. apply andb_true_iff in Hdist as [Hc Hdist].
  destruct (do_call st c) as [st1|e] eqn:Hcall; [|done].
  apply IH; [| |done].
  - apply (run_registry_inv [c] st); [done|]. simpl. by rewrite Hcall.
  - destruct c as [short long descr vt|argv]; simpl in Hcall.
    + by eapply keys_counted_add.
    + eapply keys_counted_updates; [done|]. by eapply eloArgParse_updates.
Qed.

(** The loop frees every record when each is pointed to by as many slots
    as its reference count says. *)
Lemma free_slots_all slots :
  forall m,
    (forall p, match m !! p with
               | Some (Some o) =>
                 refCount o = Z.of_nat (count_occ Nat.eq_dec slots p) /\
                 (0 < count_occ Nat.eq_dec slots p <= 2)%nat
               | _ => count_occ Nat.eq_dec slots p = 0%nat
               end) ->
    free_slots slots m = Some (replicate (length m) None).
Proof.
  induction slots as [|p slots IH]; intros m Hm; simpl.
  - f_equal. apply list_eq. intros i. specialize (Hm i). simpl in Hm.
    destruct (m !! i) as [[o|]|] eqn:Hi.
    + lia.
    + symmetry. apply lookup_replicate_2. by eapply lookup_lt_Some.
    + symmetry. apply lookup_replicate_None. by apply lookup_ge_None.
  - pose proof (Hm p) as Hp. simpl in Hp.
    destruct (Nat.eq_dec p p) as [_|]; [|done].
    destruct (m !! p) as [[o|]|] eqn:Hmp; [|done..].
    destruct Hp as [Href Hrange].
    assert (uint8_decr (refCount o) = Z.of_nat (count_occ Nat.eq_dec slots p)) as Hdecr.
    { unfold uint8_decr. rewrite Href. rewrite Z.mod_small; lia. }
    pose proof (lookup_lt_Some _ _ _ Hmp) as Hlt.
    rewrite Hdecr.
    destruct (Z.eqb_spec (Z.of_nat (count_occ Nat.eq_dec slots p)) 0) as [Hz|Hnz].
    + rewrite IH; [by rewrite length_insert|].
      intros q. destruct (decide (p = q)) as [<-|Hne].
      * rewrite list_lookup_insert_eq by done. lia.
      * rewrite list_lookup_insert_ne by done.
        specialize (Hm q). simpl in Hm.
        by destruct (Nat.eq_dec p q).
    + rewrite IH; [by rewrite length_insert|].
      intros q. destruct (decide (p = q)) as [<-|Hne].
      * rewrite list_lookup_insert_eq by done. simpl. split; [done|lia].
      * rewrite list_lookup_insert_ne by done.
        specialize (Hm q). simpl in Hm.
        by destruct (Nat.eq_dec p q).
Qed.

(** X12. Release of a registry that was reached without giving one string
    as both names of an option: in whatever order the slots of the table come,
    no record is touched after it has been freed and, when the loop is
    over, every record has been freed. *)
Theorem release_frees_every_record
    (cs : list call) (st : EloArg) (slots : list loc) :
  run eloArgInit cs = Ok st ->
  forallb distinct_names cs = true ->
  slots ≡ₚ table_pointers st ->
  eloArgFree slots st = Some (replicate (length (heap st)) None).
Proof.
  intros Hrun Hdist Hperm.
  assert (registry_inv st) as Hinv by (apply reachable_registry_inv; by exists cs).
  assert (keys_counted st) as Hcnt.
  { eapply (run_keys_counted cs eloArgInit); [apply registry_inv_init| |done|done].
    by intros [|p] o. }
  destruct Hinv as [Hptr _ Hkeyed _ _ _ Href].
  unfold eloArgFree. case_bool_decide as Hsize.
  - apply map_size_empty_iff in Hsize.
    destruct (heap st) as [|o hp] eqn:Hheap; [done|].
    destruct (Hkeyed 0%nat) as [k Hk]; [rewrite Hheap; simpl; lia|].
    by rewrite Hsize, lookup_empty in Hk.
  - rewrite free_slots_all; [by rewrite length_fmap|].
    intros p. rewrite list_lookup_fmap.
    rewrite (proj1 (Permutation_count_occ Nat.eq_dec _ _) Hperm).
    destruct (heap st !! p) as [o|] eqn:Hp; simpl.
    + pose proof (Hcnt p o Hp) as Hc. split; [done|].
      destruct (proj1 (Forall_lookup _ _) Href p o Hp) as [H1|H2]; lia.
    + apply count_occ_unallocated; [done|]. by apply lookup_ge_None.
Qed.

Lemma release_frees_every_record_witness :
  eloArgFree [1%nat; 0%nat; 0%nat; 1%nat]
    (apply_tagged port_file_registry [(0%nat, LongSpaced "port" "80")])
  = Some [None; None].
Proof.
  apply (release_frees_every_record
           [CallAdd (Some "p") (Some "port")
              (Some "Specifies the port number to listen on.") ARG_REQUIRED;
            CallAdd (Some "f") (Some "file") (Some "Path to the input file.") ARG_OPTIONAL;
            CallParse ["prog"; "--port"; "80"]]).
  - reflexivity.
  - reflexivity.
  - apply (Permutation_count_occ Nat.eq_dec). intros [|[|x]]; reflexivity.
Defined.


(** ** The help text *)

Lemma string_app_nil_l (b : string) : "" +:+ b = b.
Proof. reflexivity. Qed.

Lemma string_app_cons (x : ascii) (a b : string) : String x a +:+ b = String x (a +:+ b).
Proof. reflexivity. Qed.

Lemma string_app_assoc (a b c : string) : (a +:+ b) +:+ c = a +:+ (b +:+ c).
Proof.
  induction a as [|x a IH]; [done|]. by rewrite !string_app_cons, IH.
Qed.

Lemma string_app_empty_r (a : string) : a +:+ "" = a.
Proof. induction a as [|x a IH]; [done|]. by rewrite string_app_cons, IH. Qed.

Lemma string_length_app (a b : string) :
  String.length (a +:+ b) = (String.length a + String.length b)%nat.
Proof.
  induction a as [|x a IH]; [done|]. rewrite string_app_cons. simpl. by rewrite IH.
Qed.

Lemma length_spaces n : String.length (spaces n) = n.
Proof. induction n as [|n IH]; simpl; [done|]. by rewrite IH. Qed.

Lemma solid_app (a b : string) : solid (a +:+ b) = solid a +:+ solid b.
Proof.
  induction a as [|x a IH]; [done|]. rewrite string_app_cons. simpl.
  destruct (is_blank x || Ascii.eqb x "010"); [done|].
  by rewrite string_app_cons, IH.
Qed.

Lemma solid_spaces n : solid (spaces n) = "".
Proof. induction n as [|n IH]; simpl; [done|]. exact IH. Qed.

Lemma solid_gap (b : bool) : solid (if b then " " else "") = "".
Proof. by destruct b. Qed.

Lemma solid_cons_blank c s : is_blank c = true -> solid (String c s) = solid s.
Proof. intros Hc. simpl. by rewrite Hc. Qed.

Lemma solid_cons c s : solid (String c s) = solid (String c "") +:+ solid s.
Proof. simpl. by destruct (is_blank c || Ascii.eqb c "010"). Qed.

Lemma drop_last_cons c s : s <> "" -> drop_last (String c s) = String c (drop_last s).
Proof. intros Hs. simpl. by destruct s. Qed.

Lemma printDescription_loop_solid description :
  forall word length out,
    (description = "" -> word = "") ->
    solid (printDescription_loop description word length out)
    = solid out +:+ solid word +:+ solid (drop_last description).
Proof.
  induction description as [|c rest IH]; intros word length out Hword.
  - rewrite Hword by done. simpl. by rewrite string_app_empty_r.
  - cbn [printDescription_loop].
    destruct (is_empty rest) eqn:Hrest.
    + destruct rest; [|done]. rewrite orb_true_r.
      change (drop_last (String c "")) with "". 
      destruct (length + String.length word + _ <=? _)%nat; cbn [printDescription_loop].
      * rewrite !solid_app, solid_gap, string_app_nil_l.
        change (solid "") with "". by rewrite string_app_empty_r.
      * rewrite !solid_app, solid_spaces, !string_app_nil_l.
        change (solid "") with "". change (solid newline) with "".
        by rewrite string_app_empty_r.
    + assert (rest <> "") as Hne by (by destruct rest).
      rewrite orb_false_r, drop_last_cons by done.
      destruct (is_blank c) eqn:Hc.
      * rewrite solid_cons_blank by done.
        destruct (length + String.length word + _ <=? _)%nat; rewrite IH by done.
        -- rewrite !solid_app, solid_gap. change (solid "") with "".
           by rewrite !string_app_nil_l, !string_app_assoc.
        -- rewrite !solid_app, solid_spaces.
           change (solid "") with "". change (solid newline) with "".
           by rewrite !string_app_nil_l, !string_app_assoc.
      * rewrite IH by done.
        rewrite solid_app, (solid_cons c (drop_last rest)).
        by rewrite string_app_assoc.
Qed.

(** X13. The description printed by help, without its spaces, tabs and
    line feeds, is the stored description without its last character and
    without its spaces, tabs and line feeds: the words come out whole and in
    order, and the last character of the description is not printed. *)
Theorem printDescription_keeps_words_drops_last_character (description : string) :
  (String.length description <= ELOARG_DESCRIPTION_LENGTH)%nat ->
  solid (printDescription description) = solid (drop_last description).
Proof.
  intros _. unfold printDescription.
  rewrite solid_app. rewrite printDescription_loop_solid by done.
  change (solid newline) with "". change (solid "") with "".
  by rewrite !string_app_nil_l, string_app_empty_r.
Qed.

Lemma printDescription_keeps_words_drops_last_character_witness :
  solid (printDescription "Say hello.") = "Sayhello".
Proof.
  rewrite (printDescription_keeps_words_drops_last_character "Say hello.").
  - reflexivity.
  - unfold ELOARG_DESCRIPTION_LENGTH. simpl. lia.
Defined.

(** ** The width of the lines of a description *)

Lemma has_char_cons c x s : has_char c (String x s) = Ascii.eqb x c || has_char c s.
Proof.
  unfold has_char. simpl. destruct (Ascii.eqb x c); [done|].
  by destruct (strchr_split c s) as [[? ?]|].
Qed.

Lemma has_char_app c a b : has_char c (a +:+ b) = has_char c a || has_char c b.
Proof.
  induction a as [|x a IH]; [done|].
  rewrite string_app_cons, !has_char_cons, IH. by rewrite orb_assoc.
Qed.

Lemma has_char_spaces n : has_char "010" (spaces n) = false.
Proof. induction n as [|n IH]; [done|]. simpl spaces. by rewrite has_char_cons, IH. Qed.

Lemma line_lengths_one_line s :
  forall cur, has_char "010" s = false ->
              line_lengths s cur = [(cur + String.length s)%nat].
Proof.
  induction s as [|x s IH]; intros cur; simpl.
  - intros _. f_equal. lia.
  - rewrite has_char_cons. intros [Hx Hs]%orb_false_iff. rewrite Hx, IH by done.
    f_equal. lia.
Qed.

Lemma line_lengths_not_nil s : forall cur, line_lengths s cur <> [].
Proof.
  induction s as [|x s IH]; intros cur; simpl; [done|].
  destruct (Ascii.eqb x "010"); [done|apply IH].
Qed.

Lemma line_lengths_app a :
  forall b cur done open,
    line_lengths a cur = done ++ [open] ->
    line_lengths (a +:+ b) cur = done ++ line_lengths b open.
Proof.
  induction a as [|x a IH]; intros b cur done open.
  - simpl. destruct done as [|d [|? ?]]; [|done..]. by intros [= <-].
  - rewrite string_app_cons. simpl. destruct (Ascii.eqb x "010").
    + destruct done as [|d done].
      * intros [= _ Hnil]. by destruct (line_lengths_not_nil a 0%nat).
      * intros [= <- Hrest]. simpl. f_equal. by apply IH.
    + apply IH.
Qed.

(** What the loop keeps about the lines printed so far: [done] are the
    lengths of the finished lines, [open] is that of the line in progress
    and [length] the counter of the loop. *)
Lemma printDescription_loop_lines description :
  forall word length out done open,
    has_char "010" description = false ->
    has_char "010" word = false ->
    (longest_word description (String.length word) <= 70)%nat ->
    line_lengths out 0 = done ++ [open] ->
    (length <= 70)%nat ->
    (open <= 46 + length)%nat ->
    Forall (fun n => n <= 116)%nat done ->
    match done with [] => (open <= length)%nat | f :: _ => (f <= 70)%nat end ->
    exists done' open',
      line_lengths (printDescription_loop description word length out) 0
      = done' ++ [open'] /\
      Forall (fun n => n <= 116)%nat done' /\ (open' <= 116)%nat /\
      match done' with [] => (open' <= 70)%nat | f :: _ => (f <= 70)%nat end.
Proof.
  induction description as [|c rest IH];
    intros word length out done open Hd Hw Hlong Hout Hlen Hopen Hdone Hfirst.
  - simpl. exists done, open. repeat split; [done|done|lia|].
    destruct done; [lia|done].
  - rewrite has_char_cons in Hd. apply orb_false_iff in Hd as [Hc Hrest].
    cbn [printDescription_loop]. simpl longest_word in Hlong.
    destruct (is_blank c || is_empty rest) eqn:Hflush.
    + assert (String.length word <= 70 /\ longest_word rest 0 <= 70)%nat as [Hword Hnext].
      { destruct (is_blank c); [lia|]. simpl in Hflush. destruct rest; [simpl in *; lia|done]. }
      destruct (Nat.leb_spec (length + String.length word
                              + (if (0 <? length)%nat then 1 else 0))
                             HELP_MAX_DESCRIPTION_SENTENCE_LENGTH) as [Hfit|Hwrap].
      * unfold HELP_MAX_DESCRIPTION_SENTENCE_LENGTH in Hfit.
        apply (IH "" _ _ done
                 (open + (if (0 <? length)%nat then 1 else 0) + String.length word)%nat);
          try done; try lia.
        -- rewrite (line_lengths_app out _ 0 done open Hout).
           rewrite line_lengths_one_line.
           ++ rewrite string_length_app. do 2 f_equal.
              destruct (0 <? length)%nat; simpl; lia.
           ++ rewrite has_char_app, Hw. by destruct (0 <? length)%nat.
        -- destruct done; [|done]. lia.
      * unfold HELP_MAX_DESCRIPTION_SENTENCE_LENGTH, HELP_OPTION_LINE_LENGTH in *.
        apply (IH "" _ _ (done ++ [open]) (46 + String.length word)%nat);
          try done; try lia.
        -- rewrite (line_lengths_app out _ 0 done open Hout).
           change (newline +:+ ?x) with (String "010" x).
           change (line_lengths (String "010" ?x) open) with (open :: line_lengths x 0).
           rewrite line_lengths_one_line.
           ++ rewrite string_length_app, length_spaces. by rewrite <- app_assoc.
           ++ by rewrite has_char_app, has_char_spaces, Hw.
        -- apply Forall_app. split; [done|]. constructor; [lia|done].
        -- destruct done; simpl; [lia|done].
    + apply orb_false_iff in Hflush as [Hblank Hne]. rewrite Hblank in Hlong.
      apply (IH _ _ _ done open); try done.
      * by rewrite has_char_app, Hw, has_char_cons, Hc.
      * rewrite string_length_app. simpl. by rewrite Nat.add_1_r.
Qed.

(** X14. The lines of a printed description, for a description without
    line feed in which no word has more than 70 characters: the first line
    has at most 70 characters, and every line after it, which starts with the
    indentation of 46 spaces, at most 116. *)
Theorem printDescription_lines_are_bounded (description : string) :
  (String.length description <= ELOARG_DESCRIPTION_LENGTH)%nat ->
  has_char "010" description = false ->
  (longest_word description 0 <= 70)%nat ->
  exists first rest,
    line_lengths (printDescription description) 0 = first :: rest /\
    (first <= 70)%nat /\ Forall (fun n => n <= 116)%nat rest.
Proof.
  intros _ Hd Hlong.
  destruct (printDescription_loop_lines description "" 0 "" [] 0%nat)
    as (fin & cur & Hlines & Hfin & Hcur & Hfirst); try done; try lia.
  unfold printDescription.
  rewrite (line_lengths_app _ newline 0 fin cur Hlines).
  change (line_lengths newline cur) with [cur; 0%nat].
  destruct fin as [|f fin]; simpl.
  - exists cur, [0%nat]. repeat split; [done|]. constructor; [lia|done].
  - exists f, (fin ++ [cur; 0%nat]). repeat split; [done|].
    apply Forall_app. split; [by inversion Hfin|].
    constructor; [done|]. constructor; [lia|done].
Qed.

Lemma printDescription_lines_are_bounded_witness :
  exists first rest,
    line_lengths
      (printDescription
         "Displays help information about the available options and usage of the tool in every detail.")
      0 = first :: rest /\
    (first <= 70)%nat /\ Forall (fun n => n <= 116)%nat rest.
Proof.
  apply printDescription_lines_are_bounded.
  - unfold ELOARG_DESCRIPTION_LENGTH. simpl. lia.
  - reflexivity.
  - simpl. lia.
Defined.

(** The description of the witness is printed on two lines. *)
Example printDescription_wraps :
  line_lengths
    (printDescription
       "Displays help information about the available options and usage of the tool in every detail.")
    0 = [70; 66; 0]%nat.
Proof. reflexivity. Qed.

(** ** The list of options in the help text *)

Lemma help_loop_entries records slots :
  forall (seen : list loc) (exist : gset Z) out,
    (forall i j o o', records !! i = Some o -> records !! j = Some o' ->
                      uniqueStrId o = uniqueStrId o' -> i = j) ->
    (forall p, p ∈ slots -> (p < length records)%nat) ->
    (forall id, id ∈ exist <->
                exists q o, q ∈ seen /\ records !! q = Some o /\ uniqueStrId o = id) ->
    exists ps : list loc,
      NoDup ps /\ (forall p, p ∈ ps <-> p ∈ slots /\ p ∉ seen) /\
      help_loop records slots exist out = out +:+ help_entries records ps.
Proof.
  induction slots as [|p slots IH]; intros seen exist out Hinj Hslots Hexist.
  - exists []. split; [constructor|]. split.
    + intros p. split; [by intros ?%elem_of_nil|by intros [?%elem_of_nil _]].
    + simpl. by rewrite string_app_empty_r.
  - destruct (lookup_lt_is_Some_2 records p) as [o Ho]; [apply Hslots; by left|].
    simpl. rewrite Ho. case_bool_decide as Hin.
    + assert (p ∈ seen) as Hseen.
      { apply Hexist in Hin as (q & o' & Hq & Ho' & Hid).
        by rewrite <- (Hinj q p o' o Ho' Ho Hid). }
      destruct (IH seen exist out) as (ps & Hnd & Hmem & Hout); [done| |done|].
      { intros q Hq. apply Hslots. by right. }
      exists ps. split; [done|]. split; [|done].
      intros x. rewrite Hmem, elem_of_cons. split.
      * intros [Hx Hn]. auto.
      * intros [[->|Hx] Hn]; [done|auto].
    + assert (p ∉ seen) as Hseen.
      { intros Hp. apply Hin, Hexist. by exists p, o. }
      destruct (IH (p :: seen) ({[uniqueStrId o]} ∪ exist) (out +:+ help_entry o))
        as (ps & Hnd & Hmem & Hout); [done| | |].
      { intros q Hq. apply Hslots. by right. }
      { intros id. rewrite elem_of_union, elem_of_singleton, Hexist. split.
        - intros [->|(q & o' & Hq & Ho' & Hid)].
          + exists p, o. split; [by left|done].
          + exists q, o'. split; [by right|done].
        - intros (q & o' & [->|Hq]%elem_of_cons & Ho' & Hid).
          + left. congruence.
          + right. by exists q, o'. }
      exists (p :: ps). split; [|split].
      * constructor; [|done]. intros [_ Hp]%Hmem. apply Hp. by left.
      * intros x. rewrite elem_of_cons, Hmem, not_elem_of_cons, elem_of_cons. split.
        -- intros [->|[Hx [_ Hn]]]; auto.
        -- intros [[->|Hx] Hn]; [by left|].
           destruct (decide (x = p)) as [->|Hne]; auto.
      * rewrite Hout. simpl. by rewrite Ho, string_app_assoc.
Qed.

(** X15. The help text of a reachable registry with no more than 2^32
    options, in whatever order the slots of the table come: between the
    heading and the footer there is the entry of each registered option
    exactly once, also for an option that is in the table under two keys. *)
Theorem help_lists_every_option_once
    (st : EloArg) (slots : list loc) (description footerDescription : option string) :
  reachable st ->
  Z.of_nat (length (heap st)) <= 2 ^ 32 ->
  slots ≡ₚ table_pointers st ->
  ht_count (hashTable st) <> 0%nat ->
  exists ps : list loc,
    NoDup ps /\
    (forall p, p ∈ ps <-> (p < length (heap st))%nat) /\
    printHelp slots st description footerDescription =
      Some ((match description with
             | Some d => d +:+ newline
             | None => EmptyString
             end)
            +:+ "Options:" +:+ newline
            +:+ help_entries (heap st) ps
            +:+ (match footerDescription with
                 | Some f => newline +:+ f +:+ newline
                 | None => EmptyString
                 end)).
Proof.
  intros Hreach Hlen Hperm Hsize.
  pose proof (reachable_registry_inv st Hreach) as [Hptr _ Hkeyed [_ Hids] _ _ _].
  assert (forall p, p ∈ slots <-> (p < length (heap st))%nat) as Hslots.
  { intros p. rewrite Hperm. unfold table_pointers. rewrite list_elem_of_fmap. split.
    - intros ([k q] & -> & Hk%elem_of_map_to_list). by eapply Hptr.
    - intros [k Hk]%Hkeyed. exists (k, p). split; [done|]. by apply elem_of_map_to_list. }
  destruct (help_loop_entries (heap st) slots [] ∅ "") as (ps & Hnd & Hmem & Hout).
  - intros i j o o' Hi Hj Heq.
    rewrite (Hids i o Hi), (Hids j o' Hj) in Heq.
    apply lookup_lt_Some in Hi, Hj. rewrite !Z.mod_small in Heq by lia. lia.
  - intros p. apply Hslots.
  - intros id. split; [by intros ?%not_elem_of_empty|].
    by intros (q & o & ?%elem_of_nil & _).
  - exists ps. split; [done|]. split.
    + intros p. rewrite Hmem, Hslots. split; [by intros [? _]|].
      intros Hp. split; [done|]. by intros ?%elem_of_nil.
    + unfold printHelp. rewrite bool_decide_eq_false_2 by done.
      by rewrite Hout, string_app_nil_l.
Qed.

Lemma help_lists_every_option_once_witness :
  exists ps : list loc,
    NoDup ps /\
    (forall p, p ∈ ps <-> (p < 2)%nat) /\
    printHelp [1%nat; 0%nat; 0%nat; 1%nat] help_port_registry (Some "Tool 1.0") None =
      Some ("Tool 1.0" +:+ newline +:+ "Options:" +:+ newline
            +:+ help_entries (heap help_port_registry) ps +:+ "").
Proof.
  apply (help_lists_every_option_once help_port_registry [1%nat; 0%nat; 0%nat; 1%nat]
           (Some "Tool 1.0") None).
  - exists [CallAdd (Some "p") (Some "port")
              (Some "Specifies the port number to listen on.") ARG_REQUIRED;
            CallAdd (Some "h") (Some "help") (Some "Displays help information.") ARG_INFO].
    reflexivity.
  - vm_compute. discriminate.
  - apply (Permutation_count_occ Nat.eq_dec). intros [|[|x]]; reflexivity.
  - vm_compute. discriminate.
Defined.

(** The help text of the witness, as printed. *)
Example help_text_evaluated :
  printHelp [1%nat; 0%nat; 0%nat; 1%nat] help_port_registry (Some "Tool 1.0") None =
    Some ("Tool 1.0" +:+ newline +:+ "Options:" +:+ newline
          +:+ "  -h, --help                                  Displays help information"
          +:+ newline
          +:+ "  -p, --port                                  Specifies the port number to listen on"
          +:+ newline).
Proof. reflexivity. Qed.

(** X16. The entry of an option of a reachable registry: when the option
    has a long name, the description starts after 46 characters, the
    indentation of the lines the description is continued on; when it has a
    short name only, after 42. *)
Theorem help_entry_columns (st : EloArg) (p : loc) (o : EloArgOption) :
  reachable st ->
  heap st !! p = Some o ->
  (longOption o <> "" ->
   exists prefix, help_entry o = prefix +:+ printDescription (description o) /\
                  String.length prefix = 46%nat) /\
  (longOption o = "" -> shortOption o <> "" ->
   exists prefix, help_entry o = prefix +:+ printDescription (description o) /\
                  String.length prefix = 42%nat).
Proof.
  intros [_ _ _ _ Hbuf _ _]%reachable_registry_inv Hp.
  destruct (proj1 (Forall_lookup _ _) Hbuf p o Hp) as (Hs & Hl & _).
  unfold ELOARG_SHORT_OPTION_LENGTH, ELOARG_LONG_OPTION_LENGTH in *.
  unfold help_entry, pad, HELP_PADDING_RIGHT. split.
  - intros Hlong.
    assert (is_empty (longOption o) = false) as -> by (by destruct (longOption o)).
    destruct (shortOption o) as [|c [|? ?]] eqn:Hshort; [| |simpl in Hs; lia]; simpl negb;
      simpl andb; cbv iota.
    + exists ("      --" +:+ longOption o
              +:+ spaces (Z.abs_nat (38 - Z.of_nat (String.length (longOption o))))).
      split; [by rewrite !string_app_assoc|].
      rewrite !string_length_app, length_spaces. simpl. lia.
    + exists ("  -" +:+ String c "" +:+ ", --" +:+ longOption o
              +:+ spaces (Z.abs_nat (38 - Z.of_nat (String.length (longOption o))))).
      split; [by rewrite !string_app_assoc|].
      rewrite !string_length_app, length_spaces. simpl. lia.
  - intros -> Hshort.
    destruct (shortOption o) as [|c [|? ?]] eqn:Hsh; [done| |simpl in Hs; lia].
    simpl negb. simpl andb. cbv iota.
    exists ("  -" +:+ String c "" +:+ spaces (Z.abs_nat 38)).
    split; [by rewrite !string_app_assoc|].
    rewrite !string_length_app, length_spaces. simpl. lia.
Qed.

Lemma help_entry_columns_witness :
  exists prefix, help_entry help_option = prefix +:+ printDescription (description help_option) /\
                 String.length prefix = 46%nat.
Proof.
  destruct (help_entry_columns help_port_registry 1%nat help_option) as [Hlong _].
  - exists [CallAdd (Some "p") (Some "port")
              (Some "Specifies the port number to listen on.") ARG_REQUIRED;
            CallAdd (Some "h") (Some "help") (Some "Displays help information.") ARG_INFO].
    reflexivity.
  - reflexivity.
  - apply Hlong. discriminate.
Defined.

(** ** Positional arguments *)

Lemma parse_arg_bare_word st w next :
  starts_with_dash w = false -> parse_arg st w next = Next st false.
Proof.
  intros Hw. unfold parse_arg.
  destruct w as [|x w]; [done|].
  destruct x as [[] [] [] [] [] [] [] []]; try done.
Qed.

(** X17. Elements that do not start with a dash, the empty string among
    them, are passed over where the parser meets them as elements of their
    own: they change no record and raise no error, and the parse goes on
    with what follows them. *)
Theorem bare_words_are_skipped (st : EloArg) (words rest : list string) :
  forallb (fun w => negb (starts_with_dash w)) words = true ->
  parse_loop st (words ++ rest) = parse_loop st rest /\
  parse_loop st words = Finished st.
Proof.
  intros Hwords.
  assert (forall l, parse_loop st (words ++ l) = parse_loop st l) as Hskip.
  { intros l. induction words as [|w words IH]; [done|].
    simpl in Hwords. apply andb_true_iff in Hwords as [Hw Hwords].
    apply negb_true_iff in Hw.
    change ((w :: words) ++ l) with (w :: (words ++ l)).
    rewrite (parse_loop_next st w _ st); [by apply IH|].
    by apply parse_arg_bare_word. }
  split; [apply Hskip|].
  rewrite <- (app_nil_r words). by rewrite Hskip.
Qed.

Lemma bare_words_are_skipped_witness :
  parse_loop port_registry ["input.txt"; ""; "8080"; "--port"; "80"]
  = parse_loop port_registry ["--port"; "80"].
Proof.
  apply (bare_words_are_skipped port_registry ["input.txt"; ""; "8080"] ["--port"; "80"]).
  reflexivity.
Defined.


(** ** The example program *)

Lemma example_registry_built : run eloArgInit example_calls = Ok example_registry.
Proof. vm_compute. reflexivity. Qed.

Lemma example_registry_keys :
  hashTable example_registry !! "help" = Some 0%nat /\
  hashTable example_registry !! "version" = Some 1%nat /\
  hashTable example_registry !! "port" = Some 2%nat /\
  hashTable example_registry !! "file" = Some 3%nat /\
  ht_count (hashTable example_registry) = 10%nat.
Proof. vm_compute. repeat split. Qed.

Lemma example_registry_kinds :
  valueType <$> heap example_registry
  = [ARG_INFO; ARG_INFO; ARG_REQUIRED; ARG_OPTIONAL; ARG_NONE; ARG_NONE].
Proof. vm_compute. reflexivity. Qed.

#[local] Opaque example_registry.

Lemma example_registry_kind p vt :
  [ARG_INFO; ARG_INFO; ARG_REQUIRED; ARG_OPTIONAL; ARG_NONE; ARG_NONE] !! p = Some vt ->
  exists o0, heap example_registry !! p = Some o0 /\ valueType o0 = vt.
Proof.
  rewrite <- example_registry_kinds, list_lookup_fmap.
  destruct (heap example_registry !! p) as [o0|]; [|done].
  intros [= <-]. by exists o0.
Qed.

(** The report of [main] prints no [NULL] when every REQUIRED option of the
    registry has a value. *)
Lemma main_report_defined st :
  updates example_registry st ->
  missing_required st = false ->
  main_report st <> Undefined.
Proof.
  intros Hup Hmiss.
  assert (registry_inv st) as [_ _ _ _ _ Hval _].
  { eapply registry_inv_updates; [|exact Hup].
    apply reachable_registry_inv. exists example_calls. apply example_registry_built. }
  destruct (updates_index _ _ Hup) as (Hh & _ & _).
  destruct example_registry_keys as (_ & _ & Hkport & Hkfile & _).
  assert (forall key p vt, hashTable example_registry !! key = Some p ->
            [ARG_INFO; ARG_INFO; ARG_REQUIRED; ARG_OPTIONAL; ARG_NONE; ARG_NONE] !! p
              = Some vt ->
            exists o, lookup_option st key = Some (p, o) /\ valueType o = vt)
    as Hrec.
  { intros key p vt Hk (o0 & Hp & Hvt0)%example_registry_kind.
    destruct (updates_record _ _ Hup p o0 Hp) as (o & Ho & (_ & _ & _ & Hvt & _) & _).
    exists o. split; [|congruence].
    apply lookup_option_Some. split; [rewrite Hh; exact Hk | exact Ho]. }
  destruct (Hrec "port" 2%nat ARG_REQUIRED Hkport eq_refl) as (oport & Hport & Hvport).
  destruct (required_value_is_returned st "port" 2%nat oport Hval Hmiss Hport Hvport)
    as [_ [port Hget]].
  unfold main_report. rewrite Hget.
  destruct (eloArgHas st "file") eqn:Hhas; [|discriminate].
  destruct (Hrec "file" 3%nat ARG_OPTIONAL Hkfile eq_refl) as (ofile & Hfile & Hvfile).
  pose proof Hfile as [_ Hp]%lookup_option_Some.
  destruct (proj1 (Forall_lookup _ _) Hval 3%nat ofile Hp) as (_ & _ & Hprov).
  unfold eloArgHas in Hhas. unfold eloArgGet. rewrite Hfile in Hhas |- *. rewrite Hhas.
  assert (is_Some (value ofile)) as [file Hvalue].
  { apply Hprov; [exact Hhas|]. unfold takes_value. by rewrite Hvfile. }
  rewrite Hvalue. discriminate.
Qed.

(** X18. The example program, in whatever order the slots of the table
    come: when the vector holds the program name and no element of it is the
    double dash, no call of [printf] is given [NULL] for a string, neither
    for the port nor for the file; the process ends in [error] or exits with
    status 0. *)
Theorem main_prints_no_null (slots : list loc) (prog : string) (args : list string) :
  ~ In "--" args ->
  main slots (prog :: args) <> Undefined /\
  ((exists e, main slots (prog :: args) = Aborted e) \/
   (exists out, main slots (prog :: args) = Exited out 0)).
Proof.
  intros Hdd.
  destruct example_registry_keys as (Hkhelp & Hkversion & _ & _ & Hsize).
  assert (main slots (prog :: args) <> Undefined) as Hdef.
  { unfold main. rewrite example_registry_built.
    destruct (eloArgParse example_registry (prog :: args)) as [st|e] eqn:Hparse;
      [|discriminate].
    pose proof (eloArgParse_updates _ _ _ Hparse) as Hup.
    destruct (updates_index _ _ Hup) as (Hh & _ & _).
    assert (printHelp slots st (Some example_help_description) (Some example_help_footer)
            <> None) as Hhelp.
    { unfold printHelp. rewrite Hh, Hsize. discriminate. }
    destruct (eloArgHas st "help") eqn:Hhas_help.
    { destruct (printHelp slots st _ _); [discriminate|by destruct Hhelp]. }
    destruct (eloArgHas st "version") eqn:Hhas_version; [discriminate|].
    apply main_report_defined; [exact Hup|].
    destruct (eloArgParse_Ok_cases _ _ _ _ Hparse)
      as [Hempty|[Hin|[(k & q & oi & Hq & Hi & Hpr)|Hmiss]]].
    - rewrite Hsize in Hempty. discriminate.
    - by destruct Hdd.
    - exfalso.
      pose proof Hq as [_ Hheap]%lookup_option_Some.
      destruct (updates_record_back _ _ Hup q oi Hheap)
        as (o0 & Ho0 & (_ & _ & _ & Hvt & _)).
      rewrite Hi in Hvt.
      assert ((valueType <$> heap example_registry) !! q = Some ARG_INFO) as Hkind
        by (by rewrite list_lookup_fmap, Ho0, Hvt).
      rewrite example_registry_kinds in Hkind.
      assert (q = 0%nat \/ q = 1%nat) as [-> | ->]
        by (destruct q as [|[|[|[|[|[|q]]]]]]; auto; discriminate).
      + assert (lookup_option st "help" = Some (0%nat, oi)) as Hlook
          by (apply lookup_option_Some; split; [rewrite Hh; exact Hkhelp | exact Hheap]).
        unfold eloArgHas in Hhas_help. rewrite Hlook in Hhas_help. congruence.
      + assert (lookup_option st "version" = Some (1%nat, oi)) as Hlook
          by (apply lookup_option_Some; split; [rewrite Hh; exact Hkversion | exact Hheap]).
        unfold eloArgHas in Hhas_version. rewrite Hlook in Hhas_version. congruence.
    - exact Hmiss. }
  split; [exact Hdef|].
  assert (forall st, main_report st <> Undefined ->
            exists out, main_report st = Exited out 0) as Hreport.
  { intros st. unfold main_report.
    destruct (eloArgGet st "port"); [|intros H; destruct H; reflexivity].
    destruct (if eloArgHas st "file" then _ else _);
      [intros _; eexists; reflexivity | intros H; destruct H; reflexivity]. }
  revert Hdef. unfold main. rewrite example_registry_built.
  destruct (eloArgParse example_registry (prog :: args)) as [st|e];
    [|intros _; left; eexists; reflexivity].
  destruct (eloArgHas st "help").
  { destruct (printHelp slots st _ _); [intros _; right; eexists; reflexivity|].
    intros H. right. by apply Hreport. }
  destruct (eloArgHas st "version"); [intros _; right; eexists; reflexivity|].
  intros H. right. by apply Hreport.
Qed.

Lemma main_prints_no_null_witness :
  main [] ["prog"; "--port"; "80"; "-fa.txt"; "-vv"] <> Undefined.
Proof.
  apply (main_prints_no_null [] "prog" ["--port"; "80"; "-fa.txt"; "-vv"]).
  simpl. intros [H|[H|[H|[H|[]]]]]; discriminate.
Defined.

(** With the double dash, and with no element at all, the port is printed
    from [NULL]. *)
Example main_prints_null :
  main [] ["prog"; "--"] = Undefined /\ main [] [] = Undefined /\
  main [] ["prog"; "--port"; "80"; "-fa.txt"; "-vv"]
  = Exited ("Port: 80" +:+ newline +:+ "File: a.txt" +:+ newline
            +:+ "Verbose level 2: Detailed information" +:+ newline) 0.
Proof. vm_compute. repeat split. Qed.
